(** * godfs: the metadata store and the streaming file service of the master

    A shallow embedding of [internal/master/metadata.go] (the in-memory
    metadata store), of the master's gRPC server (Upload, Download, List,
    Delete, Stat) and of the part of the command line client that reassembles
    a download, together with the properties of these that the design
    document states.

    Go's [*FileMeta] pointers are modelled by an explicit heap of [FileMeta]
    objects, so that aliasing between a caller's record and the store's
    internal record is visible.  The operating system (files under the data
    directory) and the gRPC streams are modelled by a map of blobs and by
    explicit lists of received and sent messages; their failures are chosen
    by an environment record. *)

From stdpp Require Import gmap strings list fin_maps.
From Stdlib Require Import ZArith Ascii.
From Stdlib.Strings Require Import Byte.

Module Master.

(** ** time.Time

    A [time.Time] is kept as seconds and nanoseconds since January 1 of year 1
    (Go's internal epoch); the zero value of the type is that instant. *)

Record Time := mkTime { sec : Z; nsec : Z }.

#[global] Instance Time_eq_dec : EqDecision Time.
Proof. solve_decision. Defined.

Definition zeroTime : Time := mkTime 0 0.

Definition IsZero (t : Time) : bool := (sec t =? 0)%Z && (nsec t =? 0)%Z.

Definition unixToInternal : Z :=
  ((1969 * 365 + 1969 / 4 - 1969 / 100 + 1969 / 400) * 86400)%Z.

Definition Unix (t : Time) : Z := (sec t - unixToInternal)%Z.

(** ** Errors

    [ErrFileNotFound] and [ErrFileAlreadyExists] are the two package level
    error values.  [ErrText] is an error made by [errors.New] or by
    [fmt.Errorf] without [%w]; [ErrWrap msg e] is [fmt.Errorf (msg ++ "%w") e].
    [ErrNotExist] stands for an error of the os package for which
    [os.IsNotExist] holds, [ErrExternal] for any other error of the operating
    system or of the transport. *)

Inductive error : Type :=
| ErrFileNotFound
| ErrFileAlreadyExists
| ErrNotExist
| ErrExternal (tag : string)
| ErrText (msg : string)
| ErrWrap (msg : string) (cause : error).

#[global] Instance error_eq_dec : EqDecision error.
Proof. solve_decision. Defined.

Fixpoint errors_Is (err target : error) : bool :=
  bool_decide (err = target) ||
  match err with
  | ErrWrap _ cause => errors_Is cause target
  | _ => false
  end.

Definition os_IsNotExist (err : error) : bool := bool_decide (err = ErrNotExist).

Inductive Result (A : Type) : Type :=
| Ok (a : A)
| Err (e : error).
Arguments Ok {A} a.
Arguments Err {A} e.

(** ** FileMeta and the heap *)

Record FileMeta := mkFileMeta {
  Filename : string;
  Size : Z;
  CreatedAt : Time;
  ModifiedAt : Time
}.

#[global] Instance FileMeta_eq_dec : EqDecision FileMeta.
Proof. solve_decision. Defined.

Definition with_CreatedAt (t : Time) (m : FileMeta) : FileMeta :=
  mkFileMeta (Filename m) (Size m) t (ModifiedAt m).

Definition with_ModifiedAt (t : Time) (m : FileMeta) : FileMeta :=
  mkFileMeta (Filename m) (Size m) (CreatedAt m) t.

(** A [*FileMeta] is the index of an object in the heap.  Objects are never
    freed (Go is garbage collected); an allocation appends to the heap. *)
Abbreviation loc := nat (only parsing).

(** The state of the master process: the heap of [FileMeta] objects, the
    [files] map of the [InMemoryMetadataStore] (filename to pointer) and the
    blobs under the data directory, keyed by the name joined to [dataDir].
    The store's lock is not modelled: operations are taken one at a time. *)
Record State := mkState {
  heap : list FileMeta;
  files : gmap string loc;
  disk : gmap string (list byte)
}.

Definition set_heap (h : list FileMeta) (st : State) : State :=
  mkState h (files st) (disk st).

Definition set_files (fs : gmap string loc) (st : State) : State :=
  mkState (heap st) fs (disk st).

Definition set_disk (d : gmap string (list byte)) (st : State) : State :=
  mkState (heap st) (files st) d.

(** [&FileMeta{...}] and [stored := *meta; &stored]: a new object. *)
Definition alloc (m : FileMeta) (st : State) : loc * State :=
  (length (heap st), set_heap (heap st ++ [m]) st).

(** An assignment through a pointer, [*p = m]. *)
Definition store (p : loc) (m : FileMeta) (st : State) : State :=
  set_heap (<[p := m]> (heap st)) st.

(** ** InMemoryMetadataStore

    The methods that read through a [*FileMeta] return [None] when the
    pointer is not an object of the heap (a nil dereference, which panics). *)

(** NewInMemoryMetadataStore, in a process that holds nothing else. *)
Definition NewInMemoryMetadataStore : State := mkState [] ∅ ∅.

Definition Create (meta : loc) (now : Time) (st : State)
  : option (option error * State) :=
  m ← heap st !! meta;
  match files st !! Filename m with
  | Some _ => Some (Some ErrFileAlreadyExists, st)
  | None =>
      let m1 := if IsZero (CreatedAt m) then with_CreatedAt now m else m in
      let m2 := if IsZero (ModifiedAt m1) then with_ModifiedAt now m1 else m1 in
      let st1 := store meta m2 st in
      let '(stored, st2) := alloc m2 st1 in
      Some (None, set_files (<[Filename m2 := stored]> (files st2)) st2)
  end.

Definition Get (filename : string) (st : State)
  : option (Result loc * State) :=
  match files st !! filename with
  | None => Some (Err ErrFileNotFound, st)
  | Some meta =>
      m ← heap st !! meta;
      let '(result, st1) := alloc m st in
      Some (Ok result, st1)
  end.

Definition Update (meta : loc) (now : Time) (st : State)
  : option (option error * State) :=
  m ← heap st !! meta;
  match files st !! Filename m with
  | None => Some (Some ErrFileNotFound, st)
  | Some _ =>
      let m1 := with_ModifiedAt now m in
      let st1 := store meta m1 st in
      let '(stored, st2) := alloc m1 st1 in
      Some (None, set_files (<[Filename m1 := stored]> (files st2)) st2)
  end.

Definition Delete (filename : string) (st : State) : option error * State :=
  match files st !! filename with
  | None => (Some ErrFileNotFound, st)
  | Some _ => (None, set_files (delete filename (files st)) st)
  end.

(** The test of the loop of [List]:
    [prefix == "" || len(filename) >= len(prefix) && filename[:len(prefix)] == prefix]. *)
Definition prefix_matches (prefix filename : string) : bool :=
  String.eqb prefix "" ||
  (String.length prefix <=? String.length filename) &&
  String.eqb (String.substring 0 (String.length prefix) filename) prefix.

(** The body of [for filename, meta := range s.files], over the entries in
    the order the iteration visits them. *)
Fixpoint List_loop (prefix : string) (entries : list (string * loc))
    (result : list loc) (st : State) : option (list loc * State) :=
  match entries with
  | [] => Some (result, st)
  | (filename, meta) :: rest =>
      if prefix_matches prefix filename then
        m ← heap st !! meta;
        let '(copy, st1) := alloc m st in
        List_loop prefix rest (result ++ [copy]) st1
      else List_loop prefix rest result st
  end.

(** Go leaves the order of a map iteration unspecified; the model visits the
    entries in the order of [map_to_list], and the properties proved of
    [List] do not depend on that order. *)
Definition List (prefix : string) (st : State)
  : option (Result (list loc) * State) :=
  '(result, st1) ← List_loop prefix (map_to_list (files st)) [] st;
  Some (Ok result, st1).

Definition Exists (filename : string) (st : State) : bool :=
  bool_decide (is_Some (files st !! filename)).

(** The invariant of the store: every pointer it holds is an object of the
    heap, and that object carries the filename it is filed under. *)
Definition wf (st : State) : Prop :=
  ∀ f p, files st !! f = Some p →
    ∃ m, heap st !! p = Some m ∧ Filename m = f.

(** The records of the store, as values. *)
Definition store_view (st : State) : gmap string FileMeta :=
  omap (λ p, heap st !! p) (files st).

(** What a caller sees of a call of [Get] or of [List]: the records that the
    returned pointers point to when the call returns. *)
Definition Get_value (filename : string) (st : State)
  : option (Result FileMeta * State) :=
  '(r, st1) ← Get filename st;
  match r with
  | Ok p => m ← heap st1 !! p; Some (Ok m, st1)
  | Err e => Some (Err e, st1)
  end.

Definition List_values (prefix : string) (st : State)
  : option (Result (list FileMeta) * State) :=
  '(r, st1) ← List prefix st;
  match r with
  | Ok ps => ms ← mapM (λ p, heap st1 !! p) ps; Some (Ok ms, st1)
  | Err e => Some (Err e, st1)
  end.

(** A later call of a caller, and what it observes. *)
Inductive Query : Type :=
| QGet (filename : string)
| QList (prefix : string).

Inductive Answer : Type :=
| AGet (r : Result FileMeta)
| AList (r : Result (list FileMeta)).

Fixpoint run_queries (qs : list Query) (st : State) : option (list Answer) :=
  match qs with
  | [] => Some []
  | QGet f :: qs' =>
      '(r, st1) ← Get_value f st;
      rest ← run_queries qs' st1;
      Some (AGet r :: rest)
  | QList pre :: qs' =>
      '(r, st1) ← List_values pre st;
      rest ← run_queries qs' st1;
      Some (AList r :: rest)
  end.

(** The record that [Create] files for the caller's record [m] at time [now]. *)
Definition stamped (now : Time) (m : FileMeta) : FileMeta :=
  mkFileMeta (Filename m) (Size m)
    (if IsZero (CreatedAt m) then now else CreatedAt m)
    (if IsZero (ModifiedAt m) then now else ModifiedAt m).

(** A string starts with a prefix when it is the prefix followed by a rest. *)
Definition starts_with (prefix s : string) : Prop :=
  ∃ rest, s = prefix +:+ rest.

(** ** The operating system and the streams

    [filepath.Base] of the Go standard library on a Unix system, where the
    separator is the slash and there is no volume name: the empty path gives
    ".", trailing slashes are dropped, the part after the last slash is kept,
    and a path of slashes only gives "/".  The two scans from the end of the
    path are made on the reversed path. *)

Definition IsPathSeparator (c : ascii) : bool := Ascii.eqb c "/"%char.

Fixpoint drop_separators (l : list ascii) : list ascii :=
  match l with
  | c :: l' => if IsPathSeparator c then drop_separators l' else l
  | [] => []
  end.

Fixpoint take_element (l : list ascii) : list ascii :=
  match l with
  | c :: l' => if IsPathSeparator c then [] else c :: take_element l'
  | [] => []
  end.

Definition filepath_Base (path : string) : string :=
  if String.eqb path "" then "."
  else
    let stripped := drop_separators (rev (String.list_ascii_of_string path)) in
    let elem := String.string_of_list_ascii (rev (take_element stripped)) in
    if String.eqb elem "" then "/" else elem.

(** What the environment decides during one call of the server: the clock
    and which calls into the operating system or the stream fail.  Calls of
    [Write], [Read] and [Send] are numbered from 0 within the call. *)
Record Env := mkEnv {
  time_Now : Time;
  os_Create_err : string → option error;
  file_Write_err : nat → option (nat * error);
  file_Close_err : option error;
  os_Remove_err : string → option error;
  os_Open_err : string → option error;
  file_Read_err : nat → option error;
  stream_Send_err : nat → option error;
  stream_SendAndClose_err : option error
}.

(** An environment in which nothing fails. *)
Definition reliable (now : Time) : Env :=
  mkEnv now (λ _, None) (λ _, None) None (λ _, None) (λ _, None)
        (λ _, None) (λ _, None) None.

(** An open [*os.File] is known by the name it was opened under. *)
Abbreviation File := string (only parsing).

(** [os.Create]: the blob is created empty, or truncated. *)
Definition os_Create (env : Env) (name : string) (st : State)
  : Result File * State :=
  match os_Create_err env name with
  | Some e => (Err e, st)
  | None => (Ok name, set_disk (<[name := []]> (disk st)) st)
  end.

(** [file.Write], the [k]-th of the call: the bytes are appended; a failing
    write may have appended a part of them. *)
Definition file_Write (env : Env) (k : nat) (file : File) (b : list byte)
    (st : State) : option error * State :=
  match file_Write_err env k with
  | Some (n, e) =>
      (Some e, set_disk (alter (λ old, old ++ take n b) file (disk st)) st)
  | None => (None, set_disk (alter (λ old, old ++ b) file (disk st)) st)
  end.

(** [os.Remove]: an absent blob gives an error for which [os.IsNotExist]
    holds. *)
Definition os_Remove (env : Env) (name : string) (st : State)
  : option error * State :=
  match os_Remove_err env name with
  | Some e => (Some e, st)
  | None =>
      match disk st !! name with
      | None => (Some ErrNotExist, st)
      | Some _ => (None, set_disk (delete name (disk st)) st)
      end
  end.

(** [os.Open]: the bytes that the reads will deliver. *)
Definition os_Open (env : Env) (name : string) (st : State)
  : Result (list byte) :=
  match os_Open_err env name with
  | Some e => Err e
  | None =>
      match disk st !! name with
      | None => Err ErrNotExist
      | Some content => Ok content
      end
  end.

(** ** Server.Upload *)

(** The [oneof] field of an upload request; it may be left unset. *)
Inductive UploadRequest : Type :=
| UploadRequest_Metadata (filename : string) (size : Z)
| UploadRequest_Chunk (chunk : list byte)
| UploadRequest_unset.

(** What one [stream.Recv] returns while the client is sending: a message or
    a transport error.  When the list of these is used up, [Recv] returns
    [io.EOF]. *)
Inductive Recv : Type :=
| RecvMsg (req : UploadRequest)
| RecvErr (err : error).

Record UploadResponse := mkUploadResponse {
  Success : bool;
  Message : string;
  FileId : string
}.

(** The local variables of [Upload]; [up_file] is [None] for a nil file. *)
Record UploadVars := mkUploadVars {
  up_filename : string;
  up_fileSize : Z;
  up_file : option File
}.

(** The [return] statement through which [Upload] leaves, in source order. *)
Inductive UploadExit : Type :=
| ExitReceive
| ExitInvalidFilename
| ExitCreateFile
| ExitChunkBeforeMetadata
| ExitWriteChunk
| ExitCloseFile
| ExitStoreMetadata
| ExitSendAndClose.

#[global] Instance UploadExit_eq_dec : EqDecision UploadExit.
Proof. solve_decision. Defined.

(** The receive loop.  [nw] counts the calls of [Write] so far.  The result
    is [inl] of the variables at the [break], or [inr] of the exit taken and
    the error returned from inside the loop. *)
Fixpoint Upload_loop (env : Env) (stream : list Recv) (vars : UploadVars)
    (nw : nat) (st : State)
  : (UploadVars + UploadVars * UploadExit * error) * State :=
  match stream with
  | [] => (inl vars, st)
  | RecvErr err :: _ =>
      let st1 :=
        match up_file vars with
        | Some _ => (os_Remove env (up_filename vars) st).2
        | None => st
        end in
      (inr (vars, ExitReceive, ErrWrap "failed to receive chunk: " err), st1)
  | RecvMsg (UploadRequest_Metadata filename size) :: rest =>
      let vars1 := mkUploadVars filename size (up_file vars) in
      if negb (String.eqb (filepath_Base filename) filename) then
        (inr (vars1, ExitInvalidFilename,
              ErrText "invalid filename: must not contain path separators"),
         st)
      else
        match os_Create env filename st with
        | (Err err, st1) =>
            (inr (mkUploadVars filename size None, ExitCreateFile,
                  ErrWrap "failed to create file: " err), st1)
        | (Ok file, st1) =>
            Upload_loop env rest (mkUploadVars filename size (Some file)) nw st1
        end
  | RecvMsg (UploadRequest_Chunk chunk) :: rest =>
      match up_file vars with
      | None =>
          (inr (vars, ExitChunkBeforeMetadata,
                ErrText "received chunk before metadata"), st)
      | Some file =>
          match file_Write env nw file chunk st with
          | (Some err, st1) =>
              (inr (vars, ExitWriteChunk, ErrWrap "failed to write chunk: " err),
               (os_Remove env (up_filename vars) st1).2)
          | (None, st1) => Upload_loop env rest vars (S nw) st1
          end
      end
  | RecvMsg UploadRequest_unset :: rest => Upload_loop env rest vars nw st
  end.

(** The whole of [Upload], with the variables and the exit taken kept for the
    statements below.  [None] only if [Create] dereferences a pointer that
    is no object, which [Upload_run_total] excludes. *)
Definition Upload_run (env : Env) (stream : list Recv) (st : State)
  : option (UploadVars * UploadExit * Result UploadResponse * State) :=
  match Upload_loop env stream (mkUploadVars "" 0 None) 0 st with
  | (inr (vars, exit, err), st1) => Some (vars, exit, Err err, st1)
  | (inl vars, st1) =>
      match (match up_file vars with
             | Some _ => file_Close_err env
             | None => None
             end) with
      | Some err =>
          Some (vars, ExitCloseFile, Err (ErrWrap "failed to close file: " err),
                st1)
      | None =>
          let '(meta, st2) :=
            alloc (mkFileMeta (up_filename vars) (up_fileSize vars)
                              zeroTime zeroTime) st1 in
          '(res, st3) ← Create meta (time_Now env) st2;
          match res with
          | Some err =>
              Some (vars, ExitStoreMetadata,
                    Err (ErrWrap "failed to store metadata: " err),
                    (os_Remove env (up_filename vars) st3).2)
          | None =>
              match stream_SendAndClose_err env with
              | Some err => Some (vars, ExitSendAndClose, Err err, st3)
              | None =>
                  Some (vars, ExitSendAndClose,
                        Ok (mkUploadResponse true
                              ("File '" +:+ up_filename vars +:+
                               "' uploaded successfully")
                              (up_filename vars)),
                        st3)
              end
          end
      end
  end.

(** [Server.Upload]: the response sent, or the error returned, and the state
    left behind. *)
Definition Server_Upload (env : Env) (stream : list Recv) (st : State)
  : option (Result UploadResponse * State) :=
  '(_, _, res, st1) ← Upload_run env stream st;
  Some (res, st1).

(** ** Server.Download *)

Definition defaultChunkSize : nat := 1024 * 1024.

Inductive DownloadResponse : Type :=
| DownloadResponse_Metadata (filename : string) (size : Z)
| DownloadResponse_Chunk (chunk : list byte).

(** The loop that streams the file.  [rest] is what is left to read of the
    file; a [Read] into a buffer of [size] bytes delivers the next
    [min size (length rest)] bytes, and [io.EOF] when nothing is left.  [k]
    counts the calls of [Read] so far and [ns] those of [Send]; [sent] are
    the messages sent so far.  [fuel] bounds the number of iterations; the
    result is [None] only when it runs out. *)
Fixpoint Download_loop (env : Env) (size : nat) (fuel : nat)
    (rest : list byte) (k ns : nat) (sent : list DownloadResponse)
  : option (list DownloadResponse * option error) :=
  match fuel with
  | 0 => None
  | S fuel' =>
      match rest with
      | [] => Some (sent, None)
      | _ :: _ =>
          match file_Read_err env k with
          | Some err => Some (sent, Some (ErrWrap "failed to read file: " err))
          | None =>
              let n := Nat.min size (length rest) in
              match stream_Send_err env ns with
              | Some err =>
                  Some (sent, Some (ErrWrap "failed to send chunk: " err))
              | None =>
                  Download_loop env size fuel' (drop n rest) (S k) (S ns)
                    (sent ++ [DownloadResponse_Chunk (take n rest)])
              end
          end
      end
  end.

(** [Server.Download]: the messages sent on the stream, the error returned if
    any, and the state left behind.  One iteration per byte of the file and
    one more for the end of the file are always enough fuel
    ([Download_loop_fuel]). *)
Definition Server_Download (env : Env) (filename : string) (st : State)
  : option (list DownloadResponse * option error * State) :=
  '(r, st1) ← Get filename st;
  match r with
  | Err err =>
      if errors_Is err ErrFileNotFound then
        Some ([], Some (ErrText ("file not found: " +:+ filename)), st1)
      else Some ([], Some (ErrWrap "failed to get metadata: " err), st1)
  | Ok meta =>
      match os_Open env filename st1 with
      | Err err => Some ([], Some (ErrWrap "failed to open file: " err), st1)
      | Ok content =>
          m ← heap st1 !! meta;
          match stream_Send_err env 0 with
          | Some err =>
              Some ([], Some (ErrWrap "failed to send metadata: " err), st1)
          | None =>
              '(sent, res) ←
                Download_loop env defaultChunkSize (S (length content)) content
                  0 1 [DownloadResponse_Metadata (Filename m) (Size m)];
              Some (sent, res, st1)
          end
      end
  end.

(** ** Server.List, Server.Delete, Server.Stat *)

Record FileInfo := mkFileInfo {
  fi_Filename : string;
  fi_Size : Z;
  fi_CreatedAt : Z;
  fi_ModifiedAt : Z
}.

Definition toFileInfo (m : FileMeta) : FileInfo :=
  mkFileInfo (Filename m) (Size m) (Unix (CreatedAt m)) (Unix (ModifiedAt m)).

Definition Server_List (prefix : string) (st : State)
  : option (Result (list FileInfo) * State) :=
  '(r, st1) ← List prefix st;
  match r with
  | Err err => Some (Err (ErrWrap "failed to list files: " err), st1)
  | Ok fs =>
      fileInfos ← mapM (λ f, toFileInfo <$> heap st1 !! f) fs;
      Some (Ok fileInfos, st1)
  end.

Record DeleteResponse := mkDeleteResponse {
  del_Success : bool;
  del_Message : string
}.

Definition Server_Delete (env : Env) (filename : string) (st : State)
  : Result DeleteResponse * State :=
  if negb (Exists filename st) then
    (Ok (mkDeleteResponse false ("file not found: " +:+ filename)), st)
  else
    let '(removed, st1) := os_Remove env filename st in
    match (match removed with
           | Some err => if os_IsNotExist err then None else Some err
           | None => None
           end) with
    | Some err => (Err (ErrWrap "failed to delete file data: " err), st1)
    | None =>
        match Delete filename st1 with
        | (Some err, st2) =>
            (Err (ErrWrap "failed to delete metadata: " err), st2)
        | (None, st2) =>
            (Ok (mkDeleteResponse true
                   ("File '" +:+ filename +:+ "' deleted successfully")), st2)
        end
    end.

Record StatResponse := mkStatResponse {
  st_Exists : bool;
  st_File : option FileInfo
}.

Definition Server_Stat (filename : string) (st : State)
  : option (Result StatResponse * State) :=
  '(r, st1) ← Get filename st;
  match r with
  | Err err =>
      if errors_Is err ErrFileNotFound then
        Some (Ok (mkStatResponse false None), st1)
      else Some (Err (ErrWrap "failed to get file stats: " err), st1)
  | Ok meta =>
      m ← heap st1 !! meta;
      Some (Ok (mkStatResponse true (Some (toFileInfo m))), st1)
  end.

(** ** The client's side of a download

    [handleDownload] of the command line client, for a stream on which the
    messages [msgs] arrive and which then ends with [io.EOF]: the bytes it
    writes into the local file. *)
Fixpoint received_chunks (msgs : list DownloadResponse) : list byte :=
  match msgs with
  | [] => []
  | DownloadResponse_Chunk chunk :: rest => chunk ++ received_chunks rest
  | DownloadResponse_Metadata _ _ :: rest => received_chunks rest
  end.

Definition handleDownload (msgs : list DownloadResponse) : Result (list byte) :=
  match msgs with
  | [] => Err (ErrWrap "failed to receive metadata: " (ErrExternal "EOF"))
  | DownloadResponse_Chunk _ :: _ => Err (ErrText "expected metadata, got chunk")
  | DownloadResponse_Metadata _ _ :: rest => Ok (received_chunks rest)
  end.

(** The name and the size declared by the last metadata message of a
    stream, starting from [cur]. *)
Fixpoint declared (stream : list Recv) (cur : string * Z) : string * Z :=
  match stream with
  | [] => cur
  | RecvMsg (UploadRequest_Metadata filename size) :: rest =>
      declared rest (filename, size)
  | _ :: rest => declared rest cur
  end.

(** The messages of a client that sends one metadata message and then the
    chunks. *)
Definition upload_stream (filename : string) (size : Z)
    (chunks : list (list byte)) : list Recv :=
  RecvMsg (UploadRequest_Metadata filename size) ::
  ((λ c, RecvMsg (UploadRequest_Chunk c)) <$> chunks).

(** The records that the loop of [List] copies, in the order of the
    entries: those of the entries whose filename passes the test. *)
Definition listed (prefix : string) (h : list FileMeta)
    (entries : list (string * loc)) : list FileMeta :=
  omap (λ e : string * loc, h !! e.2)
       (filter (λ e : string * loc, prefix_matches prefix e.1 = true) entries).

(** Assignments of a caller through pointers it holds, one after another. *)
Definition caller_writes (ws : list (loc * FileMeta)) (st : State) : State :=
  foldl (λ s w, store w.1 w.2 s) st ws.

(** ** Sample data *)

Definition t7 : Time := mkTime 7 0.
Definition t100 : Time := mkTime 100 0.
Definition t200 : Time := mkTime 200 0.

Definition sample_meta : FileMeta := mkFileMeta "a.txt" 3 zeroTime zeroTime.

(** A process in which a caller holds one record and the store is empty. *)
Definition caller_state : State := mkState [sample_meta] ∅ ∅.

(** The same process after the caller's [Create] at time [t100]. *)
Definition filed_state : State :=
  mkState [stamped t100 sample_meta; stamped t100 sample_meta]
          {["a.txt" := 1]} ∅.

(** Two states that a caller of [Get] and [List] cannot tell apart: the same
    [files] map, heaps of the same length, and the same objects behind the
    pointers that the store holds. *)
Definition agree (a b : State) : Prop :=
  files a = files b ∧
  length (heap a) = length (heap b) ∧
  wf a ∧
  ∀ f q, files a !! f = Some q → heap b !! q = heap a !! q.

(** A client that declares 5 bytes and sends 3. *)
Definition short_upload : list Recv :=
  upload_stream "a.txt" 5 [["001"; "002"; "003"]%byte].

(** An environment in which only the closing of the uploaded file fails. *)
Definition close_fails : Env :=
  mkEnv t100 (λ _, None) (λ _, None) (Some (ErrExternal "close"))
        (λ _, None) (λ _, None) (λ _, None) (λ _, None) None.

(** The record and the state that [short_upload] leaves in a new server at
    time [t100]. *)
Definition uploaded_meta : FileMeta := mkFileMeta "a.txt" 5 t100 t100.

Definition uploaded_state : State :=
  mkState [uploaded_meta; uploaded_meta] {["a.txt" := 1]}
          {["a.txt" := ["001"; "002"; "003"]%byte]}.

(** A second client that uploads under the same name. *)
Definition second_upload : list Recv := upload_stream "a.txt" 1 [["009"%byte]].

(** What a caller that got the pointer 2 from [Get] assigns through it, and
    the calls made afterwards. *)
Definition sample_writes : list (loc * FileMeta) :=
  [(2, mkFileMeta "b.txt" 0 t7 t7); (2, mkFileMeta "a.txt" 9 t7 t7)].

Definition sample_queries : list Query :=
  [QGet "a.txt"; QList ""; QGet "b.txt"; QList "a"].

(** ** The running master

    [NewServer], when the data directory could be made: an empty store over
    the blobs that the directory already holds. *)
Definition NewServer (existing : gmap string (list byte)) : State :=
  mkState [] ∅ existing.

(** The states that the master goes through while it serves calls, one at a
    time. *)
Inductive reachable : State → Prop :=
| reach_NewServer existing : reachable (NewServer existing)
| reach_Upload env stream st r st1 :
    reachable st → Server_Upload env stream st = Some (r, st1) →
    reachable st1
| reach_Download env f st sent r st1 :
    reachable st → Server_Download env f st = Some (sent, r, st1) →
    reachable st1
| reach_List prefix st r st1 :
    reachable st → Server_List prefix st = Some (r, st1) → reachable st1
| reach_Delete env f st :
    reachable st → reachable (Server_Delete env f st).2
| reach_Stat f st r st1 :
    reachable st → Server_Stat f st = Some (r, st1) → reachable st1.

(** The lengths of the chunks among the messages of a download. *)
Fixpoint chunk_lengths (msgs : list DownloadResponse) : list nat :=
  match msgs with
  | [] => []
  | DownloadResponse_Chunk chunk :: rest => length chunk :: chunk_lengths rest
  | DownloadResponse_Metadata _ _ :: rest => chunk_lengths rest
  end.

(** ** Notions used in the further properties *)

(** A name has a path separator in it. *)
Definition has_separator (s : string) : Prop :=
  "/"%char ∈ String.list_ascii_of_string s.

(** The filenames that the metadata messages of a stream carry. *)
Fixpoint named (stream : list Recv) : list string :=
  match stream with
  | [] => []
  | RecvMsg (UploadRequest_Metadata filename _) :: rest => filename :: named rest
  | _ :: rest => named rest
  end.

(** ** The command line client

    The two handlers of the client that move file data, each against the
    stream it holds.  The client's files are a map from path to bytes.  What
    the handlers print is not modelled. *)

(** Chunk size for streaming uploads. *)
Definition chunkSize : nat := 1024 * 1024.

(** What the environment decides during one run of the client: which calls
    into the operating system and the stream fail, and what [CloseAndRecv]
    returns after the messages sent.  Calls of [Read], [Send] and [Write]
    are numbered from 0 within the run. *)
Record ClientEnv := mkClientEnv {
  c_Open_err : string → option error;
  c_Stat_err : option error;
  c_Upload_err : option error;
  c_Read_err : nat → option error;
  c_Send_err : nat → option error;
  c_CloseAndRecv : list UploadRequest → Result UploadResponse;
  c_Download_err : option error;
  c_Create_err : string → option error;
  c_Write_err : nat → option (nat * error);
  c_Remove_err : string → option error
}.

(** The loop of [handleUpload] that reads the local file and sends it.
    [rest] is what is left to read, [k] counts the calls of [Read] so far
    (the [k]-th chunk is sent by the call of [Send] numbered [S k], after
    the metadata message), [sent] are the messages sent so far.  The
    result is [None] only when the fuel runs out. *)
Fixpoint handleUpload_loop (cenv : ClientEnv) (fuel : nat) (rest : list byte)
    (k : nat) (sent : list UploadRequest)
  : option (list UploadRequest * option error) :=
  match fuel with
  | 0 => None
  | S fuel' =>
      match rest with
      | [] => Some (sent, None)
      | _ :: _ =>
          match c_Read_err cenv k with
          | Some err => Some (sent, Some (ErrWrap "failed to read file: " err))
          | None =>
              let n := Nat.min chunkSize (length rest) in
              match c_Send_err cenv (S k) with
              | Some err =>
                  Some (sent, Some (ErrWrap "failed to send chunk: " err))
              | None =>
                  handleUpload_loop cenv fuel' (drop n rest) (S k)
                    (sent ++ [UploadRequest_Chunk (take n rest)])
              end
          end
      end
  end.

(** [handleUpload]: the messages sent on the stream and the error returned,
    if any.  One iteration per byte of the file and one more for its end
    are always enough fuel ([handleUpload_total]). *)
Definition handleUpload (cenv : ClientEnv) (args : list string)
    (local : gmap string (list byte))
  : option (list UploadRequest * option error) :=
  match args with
  | [] => Some ([], Some (ErrText "usage: upload <local-file>"))
  | localPath :: _ =>
      match (match c_Open_err cenv localPath with
             | Some err => Err err
             | None =>
                 match local !! localPath with
                 | Some content => Ok content
                 | None => Err ErrNotExist
                 end
             end) with
      | Err err => Some ([], Some (ErrWrap "failed to open file: " err))
      | Ok content =>
          match c_Stat_err cenv with
          | Some err => Some ([], Some (ErrWrap "failed to stat file: " err))
          | None =>
              match c_Upload_err cenv with
              | Some err =>
                  Some ([], Some (ErrWrap "failed to start upload: " err))
              | None =>
                  match c_Send_err cenv 0 with
                  | Some err =>
                      Some ([], Some (ErrWrap "failed to send metadata: " err))
                  | None =>
                      '(sent, res) ←
                        handleUpload_loop cenv (S (length content)) content 0
                          [UploadRequest_Metadata (filepath_Base localPath)
                             (Z.of_nat (length content))];
                      match res with
                      | Some err => Some (sent, Some err)
                      | None =>
                          match c_CloseAndRecv cenv sent with
                          | Err err =>
                              Some (sent, Some (ErrWrap "upload failed: " err))
                          | Ok resp =>
                              if Success resp then Some (sent, None)
                              else Some (sent,
                                         Some (ErrText ("server error: "
                                                        +:+ Message resp)))
                          end
                      end
                  end
              end
          end
      end
  end.

(** [os.Remove] on the client's files; its result is not looked at. *)
Definition local_Remove (cenv : ClientEnv) (path : string)
    (local : gmap string (list byte)) : gmap string (list byte) :=
  match c_Remove_err cenv path with
  | Some _ => local
  | None => delete path local
  end.

(** The loop of [handleDownload] over the messages that arrive after the
    first one; [ending] is the error with which the stream ends, [None] for
    [io.EOF].  [k] counts the calls of [Write] so far. *)
Fixpoint handleDownload_loop (cenv : ClientEnv) (localPath : string)
    (msgs : list DownloadResponse) (ending : option error) (k : nat)
    (local : gmap string (list byte))
  : gmap string (list byte) * option error :=
  match msgs with
  | [] =>
      match ending with
      | None => (local, None)
      | Some err =>
          (local_Remove cenv localPath local,
           Some (ErrWrap "download failed: " err))
      end
  | DownloadResponse_Metadata _ _ :: rest =>
      handleDownload_loop cenv localPath rest ending k local
  | DownloadResponse_Chunk chunk :: rest =>
      match c_Write_err cenv k with
      | Some (n, err) =>
          (local_Remove cenv localPath
             (alter (λ old, old ++ take n chunk) localPath local),
           Some (ErrWrap "failed to write to file: " err))
      | None =>
          handleDownload_loop cenv localPath rest ending (S k)
            (alter (λ old, old ++ chunk) localPath local)
      end
  end.

(** [handleDownload] against a stream on which the messages [msgs] arrive
    and which then ends with [ending]: the client's files afterwards and
    the error returned, if any. *)
Definition handleDownload_run (cenv : ClientEnv) (args : list string)
    (msgs : list DownloadResponse) (ending : option error)
    (local : gmap string (list byte))
  : gmap string (list byte) * option error :=
  match args with
  | [] => (local, Some (ErrText "usage: download <remote-file> [local-path]"))
  | remoteFile :: more =>
      let localPath := match more with [] => remoteFile | p :: _ => p end in
      match c_Download_err cenv with
      | Some err => (local, Some (ErrWrap "failed to start download: " err))
      | None =>
          match msgs with
          | [] =>
              (local,
               Some (ErrWrap "failed to receive metadata: "
                       (default (ErrExternal "EOF") ending)))
          | DownloadResponse_Chunk _ :: _ =>
              (local, Some (ErrText "expected metadata, got chunk"))
          | DownloadResponse_Metadata _ _ :: rest =>
              match c_Create_err cenv localPath with
              | Some err =>
                  (local, Some (ErrWrap "failed to create local file: " err))
              | None =>
                  handleDownload_loop cenv localPath rest ending 0
                    (<[localPath := []]> local)
              end
          end
      end
  end.

(** [repeat] of the client: [char] appended to the empty string [n] times. *)
Fixpoint repeat_loop (count : nat) (char result : string) : string :=
  match count with
  | 0 => result
  | S count' => repeat_loop count' char (result +:+ char)
  end.

Definition repeat (char : string) (n : Z) : string :=
  repeat_loop (Z.to_nat n) char "".

(** A client on whose side nothing fails, on a stream whose [CloseAndRecv]
    returns what the server's [Upload] returns in the state [st]. *)
Definition connected_client (senv : Env) (st : State) : ClientEnv :=
  mkClientEnv (λ _, None) None None (λ _, None) (λ _, None)
    (λ msgs,
       match Server_Upload senv (RecvMsg <$> msgs) st with
       | Some (Ok resp, _) => Ok resp
       | Some (Err err, _) => Err err
       | None => Err (ErrExternal "no answer")
       end)
    None (λ _, None) (λ _, None) (λ _, None).

(** The files of a client. *)
Definition sample_local : gmap string (list byte) :=
  {["docs/a.txt" := ["001"; "002"; "003"]%byte]}.

(** * Properties *)

(** ** The heap *)

Lemma alloc_lookup_new m st :
  heap (alloc m st).2 !! (alloc m st).1 = Some m.
Proof.
  simpl. rewrite lookup_app_r by lia.
  by replace (length (heap st) - length (heap st)) with 0 by lia.
Qed.

Lemma alloc_lookup_old m st p x :
  heap st !! p = Some x → heap (alloc m st).2 !! p = Some x.
Proof. intros H. simpl. by apply lookup_app_l_Some. Qed.

Lemma store_lookup_eq p m st x :
  heap st !! p = Some x → heap (store p m st) !! p = Some m.
Proof.
  intros H. simpl. apply list_lookup_insert_eq. by eapply lookup_lt_Some.
Qed.

Lemma store_lookup_ne p q m st :
  p ≠ q → heap (store p m st) !! q = heap st !! q.
Proof. intros H. simpl. by apply list_lookup_insert_ne. Qed.

Lemma stamped_Filename now m : Filename (stamped now m) = Filename m.
Proof. done. Qed.

(** The two assignments of [Create] give the record [stamped]. *)
Lemma Create_stamps now m :
  (let m1 := if IsZero (CreatedAt m) then with_CreatedAt now m else m in
   if IsZero (ModifiedAt m1) then with_ModifiedAt now m1 else m1)
  = stamped now m.
Proof.
  destruct m as [f s c t]. unfold stamped, with_CreatedAt, with_ModifiedAt.
  simpl. destruct (IsZero c); simpl; destruct (IsZero t); reflexivity.
Qed.

(** [Create] on a free filename, step by step. *)
Lemma Create_fresh st meta m now :
  heap st !! meta = Some m →
  files st !! Filename m = None →
  Create meta now st =
    Some (None,
          mkState (<[meta := stamped now m]> (heap st) ++ [stamped now m])
                  (<[Filename m := length (heap st)]> (files st))
                  (disk st)).
Proof.
  intros Hm Hf. unfold Create. rewrite Hm. simpl. rewrite Hf.
  pose proof (Create_stamps now m) as E. simpl in E. rewrite E.
  unfold alloc, store, set_files, set_heap. simpl.
  by rewrite length_insert.
Qed.

Lemma Create_taken st meta m now q :
  heap st !! meta = Some m →
  files st !! Filename m = Some q →
  Create meta now st = Some (Some ErrFileAlreadyExists, st).
Proof. intros Hm Hf. unfold Create. rewrite Hm. simpl. by rewrite Hf. Qed.

Lemma Update_present st meta m now q :
  heap st !! meta = Some m →
  files st !! Filename m = Some q →
  Update meta now st =
    Some (None,
          mkState (<[meta := with_ModifiedAt now m]> (heap st)
                     ++ [with_ModifiedAt now m])
                  (<[Filename m := length (heap st)]> (files st))
                  (disk st)).
Proof.
  intros Hm Hf. unfold Update. rewrite Hm. simpl. rewrite Hf.
  unfold alloc, store, set_files, set_heap. simpl.
  by rewrite length_insert.
Qed.

Lemma Get_present st f p m :
  files st !! f = Some p →
  heap st !! p = Some m →
  Get f st = Some (Ok (length (heap st)), set_heap (heap st ++ [m]) st).
Proof. intros Hf Hm. unfold Get. rewrite Hf. simpl. by rewrite Hm. Qed.

Lemma Get_absent st f :
  files st !! f = None → Get f st = Some (Err ErrFileNotFound, st).
Proof. intros Hf. unfold Get. by rewrite Hf. Qed.

Lemma store_view_lookup st f :
  store_view st !! f = files st !! f ≫= λ p, heap st !! p.
Proof. unfold store_view. by rewrite lookup_omap. Qed.


(** ** The metadata store *)

(** C5: on a filename that is not in the store [Create] succeeds, and a
    [Get] of that filename then returns a record equal to the one stored,
    which is the caller's record with the creation and modification times
    set to the current time where the caller left them unset; on a filename
    that is in the store [Create] fails with [ErrFileAlreadyExists] and
    leaves the whole state, so also the record filed under it, as it was. *)
Theorem Create_then_Get st meta m now :
  heap st !! meta = Some m →
  (files st !! Filename m = None →
   ∃ st1 r st2,
     Create meta now st = Some (None, st1) ∧
     store_view st1 !! Filename m = Some (stamped now m) ∧
     Get (Filename m) st1 = Some (Ok r, st2) ∧
     heap st2 !! r = Some (stamped now m)) ∧
  (is_Some (files st !! Filename m) →
   Create meta now st = Some (Some ErrFileAlreadyExists, st)).
Proof.
  intros Hm. split.
  - intros Hf. eexists _, _, _. split; [by apply Create_fresh|].
    assert (Hnew : (<[meta := stamped now m]> (heap st) ++ [stamped now m])
                     !! length (heap st) = Some (stamped now m)).
    { rewrite lookup_app_r; rewrite length_insert; [|lia].
      by replace (length (heap st) - length (heap st)) with 0 by lia. }
    split; [|split].
    + rewrite store_view_lookup. simpl. rewrite lookup_insert_eq. simpl.
      exact Hnew.
    + eapply Get_present; simpl; [apply lookup_insert_eq | exact Hnew].
    + simpl. rewrite lookup_app_r; rewrite length_app, length_insert; simpl;
        [|lia].
      by replace (length (heap st) + 1 - (length (heap st) + 1)) with 0 by lia.
  - intros [q Hq]. by eapply Create_taken.
Qed.

(** C10: [Create] and [Update] write into the caller's record, not only
    into the store: after a successful [Create] the caller's record carries
    the current time in the time fields that were unset, after a successful
    [Update] it carries the current time as modification time, and the
    record filed in the store is another object with those same values, so
    the copy was taken after the assignments. *)
Theorem Create_Update_write_argument st meta m now :
  heap st !! meta = Some m →
  (files st !! Filename m = None →
   ∃ st1 stored,
     Create meta now st = Some (None, st1) ∧
     heap st1 !! meta = Some (stamped now m) ∧
     files st1 !! Filename m = Some stored ∧
     stored ≠ meta ∧
     heap st1 !! stored = Some (stamped now m)) ∧
  (is_Some (files st !! Filename m) →
   ∃ st1 stored,
     Update meta now st = Some (None, st1) ∧
     heap st1 !! meta = Some (with_ModifiedAt now m) ∧
     files st1 !! Filename m = Some stored ∧
     stored ≠ meta ∧
     heap st1 !! stored = Some (with_ModifiedAt now m)).
Proof.
  intros Hm. pose proof (lookup_lt_Some _ _ _ Hm) as Hlt.
  assert (Hne : length (heap st) ≠ meta) by lia.
  split.
  - intros Hf. eexists _, (length (heap st)).
    split; [by apply Create_fresh|]. simpl.
    split; [|split; [|split]]; [| apply lookup_insert_eq | done |].
    + apply lookup_app_l_Some. by apply list_lookup_insert_eq.
    + rewrite lookup_app_r; rewrite length_insert; [|lia].
      by replace (length (heap st) - length (heap st)) with 0 by lia.
  - intros [q Hq]. eexists _, (length (heap st)).
    split; [by eapply Update_present|]. simpl.
    split; [|split; [|split]]; [| apply lookup_insert_eq | done |].
    + apply lookup_app_l_Some. by apply list_lookup_insert_eq.
    + rewrite lookup_app_r; rewrite length_insert; [|lia].
      by replace (length (heap st) - length (heap st)) with 0 by lia.
Qed.

(** C3, as the code has it: the record that a successful [Create] files
    carries the creation time the caller supplied, or the current time if
    the caller left it unset; a successful [Update] replaces the record
    filed under the name by a copy of the caller's record with the
    modification time set to the current time, so the creation time filed
    afterwards is the one the caller supplies to [Update], and it is the
    one filed before exactly when the caller passes that one back. *)
Theorem Update_files_callers_CreatedAt st meta m now :
  heap st !! meta = Some m →
  (files st !! Filename m = None →
   ∃ st1,
     Create meta now st = Some (None, st1) ∧
     CreatedAt <$> store_view st1 !! Filename m =
       Some (if IsZero (CreatedAt m) then now else CreatedAt m)) ∧
  (∀ old, store_view st !! Filename m = Some old →
   ∃ st1,
     Update meta now st = Some (None, st1) ∧
     store_view st1 !! Filename m = Some (with_ModifiedAt now m) ∧
     CreatedAt <$> store_view st1 !! Filename m = Some (CreatedAt m) ∧
     (CreatedAt <$> store_view st1 !! Filename m = Some (CreatedAt old)
      ↔ CreatedAt m = CreatedAt old)).
Proof.
  intros Hm.
  assert (Hnew : ∀ x, (<[meta := x]> (heap st) ++ [x]) !! length (heap st)
                      = Some x).
  { intros x. rewrite lookup_app_r; rewrite length_insert; [|lia].
    by replace (length (heap st) - length (heap st)) with 0 by lia. }
  split.
  - intros Hf. eexists. split; [by apply Create_fresh|].
    rewrite store_view_lookup. simpl. rewrite lookup_insert_eq. simpl.
    by rewrite Hnew.
  - intros old Hold. rewrite store_view_lookup in Hold.
    destruct (files st !! Filename m) as [q|] eqn:Hq; [|done].
    eexists. split; [by eapply Update_present|].
    assert (E : store_view
                  (mkState (<[meta := with_ModifiedAt now m]> (heap st)
                              ++ [with_ModifiedAt now m])
                           (<[Filename m := length (heap st)]> (files st))
                           (disk st)) !! Filename m
                = Some (with_ModifiedAt now m)).
    { rewrite store_view_lookup. simpl. rewrite lookup_insert_eq. simpl.
      apply Hnew. }
    rewrite E. simpl. split; [done|]. split; [done|].
    split; [by intros [= ->] | by intros ->].
Qed.

(** C6: for a filename that is not in the store, [Stat] answers that the
    file does not exist and [Delete] answers without success, both without
    an error and with the state left as it was, and [Download] returns a
    "file not found" error with no message sent. *)
Theorem absent_file_answers env st f :
  files st !! f = None →
  Server_Stat f st = Some (Ok (mkStatResponse false None), st) ∧
  Server_Delete env f st =
    (Ok (mkDeleteResponse false ("file not found: " +:+ f)), st) ∧
  Server_Download env f st =
    Some ([], Some (ErrText ("file not found: " +:+ f)), st).
Proof.
  intros Hf. split; [|split].
  - unfold Server_Stat. by rewrite (Get_absent _ _ Hf).
  - unfold Server_Delete, Exists. rewrite Hf.
    rewrite bool_decide_eq_false_2; [done|]. by intros [? ?].
  - unfold Server_Download. by rewrite (Get_absent _ _ Hf).
Qed.


(** ** The prefix test of [List] *)

Lemma substring_prefix_iff (p f : string) :
  String.substring 0 (String.length p) f = p ↔ starts_with p f.
Proof.
  unfold starts_with. revert f. induction p as [|c p IH]; intros f; simpl.
  - split; [intros _; by exists f|]. intros _. by destruct f.
  - destruct f as [|c' f]; simpl.
    + split; [done|]. by intros [rest ?].
    + split.
      * intros [= -> H]. apply IH in H as [rest ->]. by exists rest.
      * intros [rest [= -> ->]]. f_equal. apply IH. by exists rest.
Qed.

Lemma starts_with_length (p f : string) :
  starts_with p f → String.length p ≤ String.length f.
Proof.
  intros [rest ->]. induction p as [|c p IH]; simpl; lia.
Qed.

(** The test of the code holds exactly of the names that start with the
    prefix. *)
Lemma prefix_matches_iff (p f : string) :
  prefix_matches p f = true ↔ starts_with p f.
Proof.
  unfold prefix_matches. split.
  - intros H. apply orb_true_iff in H as [H|H].
    + apply String.eqb_eq in H as ->. by exists f.
    + apply andb_true_iff in H as [_ H]. apply String.eqb_eq in H.
      by apply substring_prefix_iff.
  - intros H. apply orb_true_iff. right. apply andb_true_iff. split.
    + apply Nat.leb_le. by apply starts_with_length.
    + apply String.eqb_eq. by apply substring_prefix_iff.
Qed.

Lemma starts_with_empty (f : string) : starts_with "" f.
Proof. by exists f. Qed.


(** ** [List] *)

Lemma list_omap_cons {A B} (f : A → option B) (x : A) (l : list A) :
  omap f (x :: l) =
  match f x with Some y => y :: omap f l | None => omap f l end.
Proof. reflexivity. Qed.

Lemma listed_ext prefix h h' entries :
  (∀ e, e ∈ entries → h !! e.2 = h' !! e.2) →
  listed prefix h entries = listed prefix h' entries.
Proof.
  unfold listed. induction entries as [|e entries IH]; intros H; [done|].
  rewrite filter_cons. case_decide.
  - rewrite !list_omap_cons. rewrite (H e) by apply list_elem_of_here.
    rewrite IH; [done|]. intros ? ?. apply H. by apply list_elem_of_further.
  - apply IH. intros ? ?. apply H. by apply list_elem_of_further.
Qed.

Lemma elem_of_listed prefix h entries m :
  m ∈ listed prefix h entries ↔
  ∃ f p, (f, p) ∈ entries ∧ starts_with prefix f ∧ h !! p = Some m.
Proof.
  unfold listed. rewrite list_elem_of_omap. split.
  - intros [[f p] [Hin Hm]]. apply list_elem_of_filter in Hin as [Hp Hin].
    exists f, p. by rewrite <-prefix_matches_iff.
  - intros (f & p & Hin & Hp & Hm). exists (f, p). split; [|done].
    apply list_elem_of_filter. by rewrite prefix_matches_iff.
Qed.

Lemma listed_Filename prefix h entries :
  (∀ f p, (f, p) ∈ entries → ∃ m, h !! p = Some m ∧ Filename m = f) →
  Filename <$> listed prefix h entries =
  (filter (λ e : string * loc, prefix_matches prefix e.1 = true) entries).*1.
Proof.
  unfold listed. induction entries as [|[f p] entries IH]; intros H; [done|].
  rewrite filter_cons. case_decide.
  - destruct (H f p) as (m & Hm & Hf); [apply list_elem_of_here|].
    rewrite list_omap_cons. simpl. rewrite Hm. simpl. rewrite Hf. f_equal.
    apply IH.
    intros ? ? ?. apply H. by apply list_elem_of_further.
  - apply IH. intros ? ? ?. apply H. by apply list_elem_of_further.
Qed.

(** The loop of [List] appends one new object for each record of [listed]. *)
Lemma List_loop_spec prefix entries :
  ∀ acc st,
    (∀ e, e ∈ entries → is_Some (heap st !! e.2)) →
    List_loop prefix entries acc st =
      Some (acc ++ seq (length (heap st))
                       (length (listed prefix (heap st) entries)),
            set_heap (heap st ++ listed prefix (heap st) entries) st).
Proof.
  induction entries as [|[f p] entries IH]; intros acc st H.
  - simpl. rewrite !app_nil_r. by destruct st.
  - simpl. unfold listed. rewrite filter_cons. simpl.
    destruct (prefix_matches prefix f) eqn:Hp.
    + rewrite decide_True by done.
      destruct (H (f, p)) as [m Hm]; [apply list_elem_of_here|].
      simpl in Hm. rewrite list_omap_cons. simpl. rewrite Hm. simpl.
      rewrite IH.
      * simpl. rewrite (listed_ext prefix (heap st ++ [m]) (heap st)).
        -- unfold listed. rewrite length_app. simpl.
           rewrite <-!app_assoc. simpl.
           by replace (length (heap st) + 1) with (S (length (heap st)))
             by lia.
        -- intros e He. destruct (H e) as [x Hx];
             [by apply list_elem_of_further|].
           rewrite Hx. by apply lookup_app_l_Some.
      * intros e He. destruct (H e) as [x Hx];
          [by apply list_elem_of_further|].
        exists x. simpl. by apply lookup_app_l_Some.
    + rewrite decide_False by done. apply IH.
      intros e He. apply H. by apply list_elem_of_further.
Qed.

Lemma mapM_lookup_seq (h ms : list FileMeta) :
  mapM (λ p, (h ++ ms) !! p) (seq (length h) (length ms)) = Some ms.
Proof.
  apply mapM_Some. revert h. induction ms as [|m ms IH]; intros h; simpl.
  - constructor.
  - constructor.
    + rewrite lookup_app_r by lia.
      by replace (length h - length h) with 0 by lia.
    + specialize (IH (h ++ [m])). rewrite length_app in IH. simpl in IH.
      rewrite <-app_assoc in IH. simpl in IH.
      by replace (S (length h)) with (length h + 1) by lia.
Qed.

Lemma wf_entries st e :
  wf st → e ∈ map_to_list (files st) →
  ∃ m, heap st !! e.2 = Some m ∧ Filename m = e.1.
Proof.
  intros Hwf He. destruct e as [f p]. apply elem_of_map_to_list in He.
  by apply Hwf.
Qed.

Lemma List_eq st prefix :
  wf st →
  List prefix st =
    Some (Ok (seq (length (heap st))
                  (length (listed prefix (heap st) (map_to_list (files st))))),
          set_heap (heap st
                      ++ listed prefix (heap st) (map_to_list (files st))) st).
Proof.
  intros Hwf. unfold List. rewrite List_loop_spec; [done|].
  intros e He. destruct (wf_entries st e Hwf He) as (m & Hm & _). by exists m.
Qed.

Lemma List_values_eq st prefix :
  wf st →
  List_values prefix st =
    Some (Ok (listed prefix (heap st) (map_to_list (files st))),
          set_heap (heap st
                      ++ listed prefix (heap st) (map_to_list (files st))) st).
Proof.
  intros Hwf. unfold List_values. rewrite List_eq by done. simpl.
  by rewrite mapM_lookup_seq.
Qed.

Lemma wf_grow st ms : wf st → wf (set_heap (heap st ++ ms) st).
Proof.
  intros Hwf f p Hf. destruct (Hwf f p Hf) as (m & Hm & E).
  exists m. split; [|done]. simpl. by apply lookup_app_l_Some.
Qed.

Lemma store_view_grow st ms :
  wf st → store_view (set_heap (heap st ++ ms) st) = store_view st.
Proof.
  intros Hwf. apply map_eq. intros f. rewrite !store_view_lookup. simpl.
  destruct (files st !! f) as [p|] eqn:Hf; [|done]. simpl.
  destruct (Hwf f p Hf) as (m & Hm & _).
  transitivity (Some m); [by apply lookup_app_l_Some | done].
Qed.

Lemma elem_of_listed_view st prefix m :
  m ∈ listed prefix (heap st) (map_to_list (files st)) ↔
  ∃ f, store_view st !! f = Some m ∧ starts_with prefix f.
Proof.
  rewrite elem_of_listed. split.
  - intros (f & p & Hin & Hp & Hm). exists f. split; [|done].
    apply elem_of_map_to_list in Hin. rewrite store_view_lookup, Hin. done.
  - intros (f & Hv & Hp). rewrite store_view_lookup in Hv.
    destruct (files st !! f) as [p|] eqn:Hf; [|done].
    exists f, p. split; [by apply elem_of_map_to_list|done].
Qed.

Lemma NoDup_listed st prefix :
  wf st → NoDup (listed prefix (heap st) (map_to_list (files st))).
Proof.
  intros Hwf. apply (NoDup_fmap_1 Filename).
  rewrite listed_Filename.
  - eapply sublist_NoDup; [apply (NoDup_fst_map_to_list (files st))|].
    apply fmap_sublist, sublist_filter.
  - intros f p Hin. by apply (wf_entries st (f, p)).
Qed.

(** C7: for every state of the store and every prefix, [List] succeeds and
    returns pointers to new objects, copies of the records of exactly the
    filenames that start with the prefix, each once; with the empty prefix
    these are all the records of the store, and when no filename starts
    with the prefix the result is the empty sequence, without an error.
    The store itself is left as it was. *)
Theorem List_returns_matching st prefix :
  wf st →
  ∃ ps ms st1,
    List prefix st = Some (Ok ps, st1) ∧
    mapM (λ p, heap st1 !! p) ps = Some ms ∧
    (∀ m, m ∈ ms ↔ ∃ f, store_view st !! f = Some m ∧ starts_with prefix f) ∧
    NoDup ms ∧
    (∀ p, p ∈ ps → length (heap st) ≤ p) ∧
    store_view st1 = store_view st ∧
    (prefix = "" → ∀ f m, store_view st !! f = Some m → m ∈ ms) ∧
    ((∀ f, is_Some (files st !! f) → ¬ starts_with prefix f) → ps = []).
Proof.
  intros Hwf. eexists _, (listed prefix (heap st) (map_to_list (files st))), _.
  split; [by apply List_eq|]. simpl.
  split; [apply mapM_lookup_seq|].
  split; [intros m; apply elem_of_listed_view|].
  split; [by apply NoDup_listed|].
  split; [intros p Hp; apply elem_of_seq in Hp; lia|].
  split; [by apply store_view_grow|].
  split.
  - intros -> f m Hm. apply elem_of_listed_view. exists f. split; [done|].
    apply starts_with_empty.
  - intros Hnone.
    destruct (listed prefix (heap st) (map_to_list (files st))) as [|m l] eqn:E;
      [done|].
    assert (Hm : m ∈ listed prefix (heap st) (map_to_list (files st)))
      by (rewrite E; apply list_elem_of_here).
    apply elem_of_listed_view in Hm as (f & Hv & Hp).
    rewrite store_view_lookup in Hv.
    destruct (files st !! f) as [p|] eqn:Hf; [|done].
    destruct (Hnone f); [by rewrite Hf|done].
Qed.


(** ** Copies returned by [Get] and [List] *)

Lemma Get_value_eq st f :
  wf st →
  Get_value f st =
    Some (match store_view st !! f with
          | Some m => (Ok m, set_heap (heap st ++ [m]) st)
          | None => (Err ErrFileNotFound, st)
          end).
Proof.
  intros Hwf. unfold Get_value. rewrite store_view_lookup.
  destruct (files st !! f) as [p|] eqn:Hf.
  - destruct (Hwf f p Hf) as (m & Hm & _). simpl.
    rewrite (Get_present st f p m Hf Hm). simpl. rewrite Hm.
    rewrite lookup_app_r by lia.
    by replace (length (heap st) - length (heap st)) with 0 by lia.
  - by rewrite (Get_absent st f Hf).
Qed.

Lemma agree_wf a b : agree a b → wf b.
Proof.
  intros (Hf & _ & Hwf & Hh) f q Hq. rewrite <-Hf in Hq.
  destruct (Hwf f q Hq) as (m & Hm & E). exists m. split; [|done].
  by rewrite (Hh f q Hq).
Qed.

Lemma agree_trans a b c : agree a b → agree b c → agree a c.
Proof.
  intros (Hf & Hl & Hwf & Hh) (Hf' & Hl' & _ & Hh').
  split; [congruence|]. split; [congruence|]. split; [done|].
  intros f q Hq. rewrite <-(Hh f q Hq). apply (Hh' f q). by rewrite <-Hf.
Qed.

Lemma agree_view a b : agree a b → store_view a = store_view b.
Proof.
  intros (Hf & _ & _ & Hh). apply map_eq. intros f.
  rewrite !store_view_lookup, <-Hf.
  destruct (files a !! f) as [q|] eqn:Hq; [|done]. simpl.
  by rewrite (Hh f q Hq).
Qed.

Lemma agree_listed prefix a b :
  agree a b →
  listed prefix (heap a) (map_to_list (files a)) =
  listed prefix (heap b) (map_to_list (files b)).
Proof.
  intros (Hf & _ & _ & Hh). rewrite <-Hf. apply listed_ext.
  intros [f q] He. apply elem_of_map_to_list in He. simpl.
  by rewrite (Hh f q He).
Qed.

Lemma agree_grow a b ms :
  agree a b →
  agree (set_heap (heap a ++ ms) a) (set_heap (heap b ++ ms) b).
Proof.
  intros (Hf & Hl & Hwf & Hh). split; [done|].
  split; [simpl; rewrite !length_app; lia|].
  split; [by apply wf_grow|].
  intros f q Hq. simpl in *. destruct (Hwf f q Hq) as (m & Hm & _).
  rewrite (lookup_app_l_Some _ _ _ _ Hm).
  apply lookup_app_l_Some. by rewrite (Hh f q Hq).
Qed.

(** States that agree give the same answers to every sequence of calls. *)
Lemma agree_run_queries qs :
  ∀ a b, agree a b → run_queries qs a = run_queries qs b.
Proof.
  induction qs as [|[f|pre] qs IH]; intros a b Hab; [done| |];
    pose proof (agree_wf a b Hab) as Hwb;
    assert (Hwa : wf a) by apply Hab.
  - simpl. rewrite !Get_value_eq by done.
    rewrite <-(agree_view a b Hab).
    destruct (store_view a !! f) as [m|]; simpl.
    + by rewrite (IH _ _ (agree_grow a b [m] Hab)).
    + by rewrite (IH _ _ Hab).
  - simpl. rewrite !List_values_eq by done.
    rewrite <-(agree_listed pre a b Hab). simpl.
    by rewrite (IH _ _ (agree_grow a b _ Hab)).
Qed.

(** In a state that satisfies the invariant every call answers. *)
Lemma run_queries_total qs : ∀ st, wf st → is_Some (run_queries qs st).
Proof.
  induction qs as [|[f|pre] qs IH]; intros st Hwf; [by eexists| |].
  - simpl. rewrite Get_value_eq by done.
    destruct (store_view st !! f) as [m|]; simpl.
    + destruct (IH _ (wf_grow st [m] Hwf)) as [r ->]. by eexists.
    + destruct (IH _ Hwf) as [r ->]. by eexists.
  - simpl. rewrite List_values_eq by done. simpl.
    destruct (IH _ (wf_grow st (listed pre (heap st) (map_to_list (files st)))
                      Hwf)) as [r ->].
    by eexists.
Qed.

Lemma agree_store st p v :
  wf st → (∀ f q, files st !! f = Some q → q ≠ p) → agree (store p v st) st.
Proof.
  intros Hwf Hext.
  assert (Hsame : ∀ f q, files st !! f = Some q →
                    heap (store p v st) !! q = heap st !! q).
  { intros f q Hq. apply store_lookup_ne. intros ->. by eapply Hext. }
  split; [done|]. split; [simpl; by rewrite length_insert|]. split.
  - intros f q Hq. destruct (Hwf f q Hq) as (m & Hm & E). exists m.
    split; [|done]. by rewrite (Hsame f q Hq).
  - intros f q Hq. symmetry. by apply (Hsame f q).
Qed.

Lemma agree_caller_writes ws :
  ∀ st, wf st →
    Forall (λ w : loc * FileMeta, ∀ f q, files st !! f = Some q → q ≠ w.1) ws →
    agree (caller_writes ws st) st.
Proof.
  induction ws as [|w ws IH]; intros st Hwf Hws.
  - split; [done|]. split; [done|]. split; [done|]. done.
  - apply Forall_cons in Hws as [Hw Hws]. simpl.
    pose proof (agree_store st w.1 w.2 Hwf Hw) as Hst.
    eapply agree_trans; [|exact Hst].
    apply IH; [by destruct Hst as (_ & _ & ? & _)|done].
Qed.

(** C8: a pointer returned by [Get] or by [List] is none of those the
    store holds, and whatever a caller assigns through the returned pointers,
    every later sequence of calls of [Get] and [List] gets the answers it
    would have got without these assignments (and it does get answers). *)
Theorem returned_copies_isolated st :
  wf st →
  (∀ f p st1, Get f st = Some (Ok p, st1) →
     (∀ g q, files st1 !! g = Some q → q ≠ p) ∧
     ∀ ws qs, Forall (λ w : loc * FileMeta, w.1 = p) ws →
       is_Some (run_queries qs st1) ∧
       run_queries qs (caller_writes ws st1) = run_queries qs st1) ∧
  (∀ pre ps st1, List pre st = Some (Ok ps, st1) →
     (∀ g q p, files st1 !! g = Some q → p ∈ ps → q ≠ p) ∧
     ∀ ws qs, Forall (λ w : loc * FileMeta, w.1 ∈ ps) ws →
       is_Some (run_queries qs st1) ∧
       run_queries qs (caller_writes ws st1) = run_queries qs st1).
Proof.
  intros Hwf.
  assert (Hint : ∀ f q, files st !! f = Some q → q < length (heap st)).
  { intros f q Hq. destruct (Hwf f q Hq) as (m & Hm & _).
    by eapply lookup_lt_Some. }
  split.
  - intros f p st1 HG. unfold Get in HG.
    destruct (files st !! f) as [q|] eqn:Hq; [|done].
    destruct (Hwf f q Hq) as (m & Hm & _). rewrite Hm in HG.
    simpl in HG. injection HG as <- <-.
    assert (Hfresh : ∀ g q', files st !! g = Some q' → q' ≠ length (heap st)).
    { intros g q' Hq'. apply Hint in Hq'. lia. }
    split; [exact Hfresh|]. intros ws qs Hws.
    split; [by apply run_queries_total, wf_grow|].
    apply agree_run_queries, agree_caller_writes; [by apply wf_grow|].
    eapply Forall_impl; [exact Hws|]. intros w -> f' q' Hq'.
    by apply (Hfresh f').
  - intros pre ps st1 HL. rewrite List_eq in HL by done.
    injection HL as <- <-.
    assert (Hfresh : ∀ g q p, files st !! g = Some q →
              p ∈ seq (length (heap st))
                    (length (listed pre (heap st) (map_to_list (files st)))) →
              q ≠ p).
    { intros g q p Hq Hp. apply Hint in Hq. apply elem_of_seq in Hp. lia. }
    split; [exact Hfresh|]. intros ws qs Hws.
    split; [by apply run_queries_total, wf_grow|].
    apply agree_run_queries, agree_caller_writes; [by apply wf_grow|].
    eapply Forall_impl; [exact Hws|]. intros w Hw f' q' Hq'.
    by apply (Hfresh f' q' w.1).
Qed.


(** ** [Upload] *)

Lemma Create_total st meta now :
  is_Some (heap st !! meta) → is_Some (Create meta now st).
Proof.
  intros [m Hm]. destruct (files st !! Filename m) as [q|] eqn:Hq.
  - rewrite (Create_taken st meta m now q Hm Hq). by eexists.
  - rewrite (Create_fresh st meta m now Hm Hq). by eexists.
Qed.

(** The call of [Create] at the end of [Upload], on the record just made. *)
Lemma Create_of_new st name size now :
  let meta := mkFileMeta name size zeroTime zeroTime in
  let filed := mkFileMeta name size now now in
  Create (alloc meta st).1 now (alloc meta st).2 =
    Some (match files st !! name with
          | Some _ => (Some ErrFileAlreadyExists, (alloc meta st).2)
          | None =>
              (None, mkState (heap st ++ [filed; filed])
                             (<[name := S (length (heap st))]> (files st))
                             (disk st))
          end).
Proof.
  intros meta filed.
  pose proof (alloc_lookup_new meta st) as Hm.
  destruct (files st !! name) as [q|] eqn:Hq.
  - by rewrite (Create_taken _ _ meta now q Hm Hq).
  - rewrite (Create_fresh _ _ meta now Hm Hq). simpl. do 2 f_equal.
    f_equal.
    + rewrite insert_app_r_alt by lia.
      replace (length (heap st) - length (heap st)) with 0 by lia.
      simpl. by rewrite <-app_assoc.
    + rewrite length_app. simpl. f_equal. lia.
Qed.

(** [Upload] always returns. *)
Lemma Upload_run_total env stream st : is_Some (Upload_run env stream st).
Proof.
  unfold Upload_run.
  destruct (Upload_loop env stream (mkUploadVars "" 0 None) 0 st)
    as [[vars|[[vars exit] err]] st1]; [|by eexists].
  destruct (match up_file vars with
            | Some _ => file_Close_err env
            | None => None
            end); [by eexists|].
  pose proof (Create_of_new st1 (up_filename vars) (up_fileSize vars)
                (time_Now env)) as E.
  simpl in E. simpl. rewrite E.
  destruct (files st1 !! up_filename vars); simpl; [by eexists|].
  destruct (stream_SendAndClose_err env); by eexists.
Qed.

(** The receive loop touches the blobs only. *)
Lemma Upload_loop_frame env stream :
  ∀ vars nw st r st1,
    Upload_loop env stream vars nw st = (r, st1) →
    heap st1 = heap st ∧ files st1 = files st.
Proof.
  induction stream as [|[[filename size|chunk|]|err] stream IH];
    intros vars nw st r st1 H; simpl in H.
  - by injection H as <- <-.
  - destruct (negb (String.eqb (filepath_Base filename) filename)).
    + by injection H as <- <-.
    + unfold os_Create in H. destruct (os_Create_err env filename).
      * by injection H as <- <-.
      * by apply IH in H.
  - destruct (up_file vars) as [file|]; [|by injection H as <- <-].
    unfold file_Write in H. destruct (file_Write_err env nw) as [[n e]|].
    + injection H as <- <-. unfold os_Remove.
      destruct (os_Remove_err env (up_filename vars)); [done|]. simpl.
      by destruct (alter _ file (disk st) !! up_filename vars).
    + by apply IH in H.
  - by apply IH in H.
  - injection H as <- <-. destruct (up_file vars); [|done].
    unfold os_Remove. destruct (os_Remove_err env (up_filename vars)); [done|].
    by destruct (disk st !! up_filename vars).
Qed.

(** At the [break] the variables hold what the last metadata message
    declared. *)
Lemma Upload_loop_declared env stream :
  ∀ vars nw st vars1 st1,
    Upload_loop env stream vars nw st = (inl vars1, st1) →
    (up_filename vars1, up_fileSize vars1) =
    declared stream (up_filename vars, up_fileSize vars).
Proof.
  induction stream as [|[[filename size|chunk|]|err] stream IH];
    intros vars nw st vars1 st1 H; simpl in H.
  - by injection H as <- <-.
  - destruct (negb (String.eqb (filepath_Base filename) filename)); [done|].
    destruct (os_Create env filename st) as [[file|e] st2]; [|done].
    by apply IH in H.
  - destruct (up_file vars) as [file|]; [|done].
    destruct (file_Write env nw file chunk st) as [[e|] st2]; [done|].
    by apply IH in H.
  - by apply IH in H.
  - done.
Qed.

Lemma os_Remove_gone env name st :
  os_Remove_err env name = None →
  disk (os_Remove env name st).2 !! name = None.
Proof.
  intros H. unfold os_Remove. rewrite H.
  destruct (disk st !! name) eqn:E; simpl; [apply lookup_delete_eq|done].
Qed.

Lemma os_Remove_frame env name st :
  heap (os_Remove env name st).2 = heap st ∧
  files (os_Remove env name st).2 = files st.
Proof.
  unfold os_Remove. destruct (os_Remove_err env name); [done|].
  by destruct (disk st !! name).
Qed.

(** When the loop returns after a transport error with a file open, or
    after a failed write, the blob of the current filename is gone, provided
    its removal did not fail. *)
Lemma Upload_loop_abort env stream :
  ∀ vars nw st vars1 exit err st1,
    Upload_loop env stream vars nw st = (inr (vars1, exit, err), st1) →
    (exit = ExitReceive ∧ is_Some (up_file vars1)) ∨ exit = ExitWriteChunk →
    os_Remove_err env (up_filename vars1) = None →
    disk st1 !! up_filename vars1 = None.
Proof.
  induction stream as [|[[filename size|chunk|]|e] stream IH];
    intros vars nw st vars1 exit err st1 H Hexit Hrm; simpl in H.
  - done.
  - destruct (negb (String.eqb (filepath_Base filename) filename)).
    + injection H as <- <- <- <-. by destruct Hexit as [[? _]|?].
    + destruct (os_Create env filename st) as [[file|e] st2].
      * by eapply IH.
      * injection H as <- <- <- <-. by destruct Hexit as [[? _]|?].
  - destruct (up_file vars) as [file|].
    + destruct (file_Write env nw file chunk st) as [[e|] st2].
      * injection H as <- <- <- <-. by apply os_Remove_gone.
      * by eapply IH.
    + injection H as <- <- <- <-. by destruct Hexit as [[? _]|?].
  - by eapply IH.
  - injection H as <- <- <- <-. destruct Hexit as [[_ [file Hfile]]|?]; [|done].
    rewrite Hfile. by apply os_Remove_gone.
Qed.

Lemma store_view_same a b :
  heap a = heap b → files a = files b → store_view a = store_view b.
Proof. unfold store_view. by intros -> ->. Qed.


(** The end of [Upload] after the loop has left through its [break]. *)
Lemma Upload_run_finish env stream st vars st1 :
  Upload_loop env stream (mkUploadVars "" 0 None) 0 st = (inl vars, st1) →
  (match up_file vars with Some _ => file_Close_err env | None => None end)
    = None →
  let filed := mkFileMeta (up_filename vars) (up_fileSize vars)
                          (time_Now env) (time_Now env) in
  Upload_run env stream st =
    Some
      (match files st1 !! up_filename vars with
       | Some _ =>
           (vars, ExitStoreMetadata,
            Err (ErrWrap "failed to store metadata: " ErrFileAlreadyExists),
            (os_Remove env (up_filename vars)
               (alloc (mkFileMeta (up_filename vars) (up_fileSize vars)
                                  zeroTime zeroTime) st1).2).2)
       | None =>
           (vars, ExitSendAndClose,
            match stream_SendAndClose_err env with
            | Some err => Err err
            | None =>
                Ok (mkUploadResponse true
                      ("File '" +:+ up_filename vars +:+
                       "' uploaded successfully")
                      (up_filename vars))
            end,
            mkState (heap st1 ++ [filed; filed])
                    (<[up_filename vars := S (length (heap st1))]> (files st1))
                    (disk st1))
       end).
Proof.
  intros HL HC filed. unfold Upload_run. rewrite HL, HC.
  pose proof (Create_of_new st1 (up_filename vars) (up_fileSize vars)
                (time_Now env)) as E.
  simpl in E. simpl. rewrite E.
  destruct (files st1 !! up_filename vars); simpl; [done|].
  by destruct (stream_SendAndClose_err env).
Qed.

Lemma lookup_filed (h : list FileMeta) (r : FileMeta) :
  (h ++ [r; r]) !! S (length h) = Some r.
Proof.
  rewrite lookup_app_r by lia.
  by replace (S (length h) - length h) with 1 by lia.
Qed.

(** C9: when the stream of an [Upload] ends before any message, the server
    reports no protocol violation; it calls [Create] with the empty
    filename and size 0, so that on a store without a record of the empty
    name a record with the empty filename is filed (the call then returns
    what sending the response returns), and on a store that has such a
    record the upload fails with the "already exists" error of [Create]. *)
Theorem Upload_of_no_message env st :
  (files st !! "" = None →
   ∃ st1 p,
     Server_Upload env [] st =
       Some (match stream_SendAndClose_err env with
             | Some err => Err err
             | None =>
                 Ok (mkUploadResponse true "File '' uploaded successfully" "")
             end, st1) ∧
     files st1 !! "" = Some p ∧
     heap st1 !! p = Some (mkFileMeta "" 0 (time_Now env) (time_Now env))) ∧
  (is_Some (files st !! "") →
   ∃ st1,
     Server_Upload env [] st =
       Some (Err (ErrWrap "failed to store metadata: " ErrFileAlreadyExists),
             st1) ∧
     files st1 = files st).
Proof.
  pose proof (Upload_run_finish env [] st (mkUploadVars "" 0 None) st
                eq_refl eq_refl) as E.
  simpl in E. unfold Server_Upload. rewrite E. split.
  - intros Hf. rewrite Hf. eexists _, _. split; [done|]. simpl.
    split; [apply lookup_insert_eq | apply lookup_filed].
  - intros [q Hq]. rewrite Hq. eexists. split; [done|].
    exact (proj2 (os_Remove_frame env ""
                    (alloc (mkFileMeta "" 0 zeroTime zeroTime) st).2)).
Qed.

(** C1, as the code has it: when an [Upload] completes, the record filed
    carries the name and the size declared by the last metadata message of
    the stream (the empty name and 0 if there was none), whatever the
    chunks that were written. *)
Theorem Upload_files_declared_size env stream st resp st1 :
  Server_Upload env stream st = Some (Ok resp, st1) →
  store_view st1 !! (declared stream ("", 0%Z)).1 =
    Some (mkFileMeta (declared stream ("", 0%Z)).1
                     (declared stream ("", 0%Z)).2
                     (time_Now env) (time_Now env)) ∧
  FileId resp = (declared stream ("", 0%Z)).1.
Proof.
  unfold Server_Upload, Upload_run.
  destruct (Upload_loop env stream (mkUploadVars "" 0 None) 0 st)
    as [[vars|[[vars exit] err]] stL] eqn:HL; [|done].
  pose proof (Upload_loop_declared _ _ _ _ _ _ _ HL) as Hd. simpl in Hd.
  rewrite <-Hd. simpl.
  destruct (match up_file vars with
            | Some _ => file_Close_err env
            | None => None
            end); [done|].
  pose proof (Create_of_new stL (up_filename vars) (up_fileSize vars)
                (time_Now env)) as E.
  simpl in E. rewrite E.
  destruct (files stL !! up_filename vars); simpl; [done|].
  destruct (stream_SendAndClose_err env); [done|].
  intros [= <- <-]. split; [|done].
  rewrite store_view_lookup. simpl. rewrite lookup_insert_eq. simpl.
  apply lookup_filed.
Qed.

(** C2, as the code has it: when an [Upload] returns after a transport
    error with the file open, after a failed write of a chunk or after a
    failed [Create], it has called [os.Remove] on the blob of the current
    filename, so that, where this removal did not itself fail, no blob of
    that name is left; the records of the store are those from before the
    upload (after a failed [Create] the record that was already filed under
    the name is among them). *)
Theorem Upload_abort_removes_blob env stream st vars exit err st1 :
  wf st →
  Upload_run env stream st = Some (vars, exit, Err err, st1) →
  (exit = ExitReceive ∧ is_Some (up_file vars)) ∨
  exit = ExitWriteChunk ∨ exit = ExitStoreMetadata →
  os_Remove_err env (up_filename vars) = None →
  disk st1 !! up_filename vars = None ∧
  files st1 = files st ∧
  store_view st1 = store_view st.
Proof.
  intros Hwf H Hexit Hrm. unfold Upload_run in H.
  destruct (Upload_loop env stream (mkUploadVars "" 0 None) 0 st)
    as [[vars'|[[vars' exit'] err']] stL] eqn:HL.
  - destruct (Upload_loop_frame _ _ _ _ _ _ _ HL) as [Hh Hf].
    destruct (match up_file vars' with
              | Some _ => file_Close_err env
              | None => None
              end).
    { injection H as <- <- <- <-. by destruct Hexit as [[? _]|[?|?]]. }
    pose proof (Create_of_new stL (up_filename vars') (up_fileSize vars')
                  (time_Now env)) as E.
    simpl in E, H. rewrite E in H. clear E.
    destruct (files stL !! up_filename vars') eqn:Hq; simpl in H.
    + injection H as <- <- <- <-.
      split; [by apply os_Remove_gone|].
      match goal with
      | |- context [os_Remove env ?n ?s] =>
          destruct (os_Remove_frame env n s) as [Hh' Hf']
      end.
      split; [by rewrite Hf'|].
      assert (Hw : wf stL).
      { intros f p Hp. rewrite Hf in Hp. rewrite Hh. by apply Hwf. }
      erewrite store_view_same; [|exact Hh'|exact Hf'].
      rewrite (store_view_grow stL _ Hw).
      by apply store_view_same.
    + destruct (stream_SendAndClose_err env); [|done].
      injection H as <- <- <- <-. by destruct Hexit as [[? _]|[?|?]].
  - injection H as <- <- <- <-.
    destruct (Upload_loop_frame _ _ _ _ _ _ _ HL) as [Hh Hf].
    split; [|split; [done|by apply store_view_same]].
    eapply Upload_loop_abort; [exact HL| |done].
    destruct Hexit as [?|[?|Hx]]; [by left|by right|].
    exfalso. rewrite Hx in HL.
    clear -HL. revert HL.
    generalize (mkUploadVars "" 0 None) 0 st.
    induction stream as [|[[filename size|chunk|]|e] stream IH];
      intros v nw s H; simpl in H; [done| | | |done].
    + destruct (negb (String.eqb (filepath_Base filename) filename)); [done|].
      destruct (os_Create env filename s) as [[file|e] s2]; [|done].
      by eapply IH.
    + destruct (up_file v) as [file|]; [|done].
      destruct (file_Write env nw file chunk s) as [[e|] s2]; [done|].
      by eapply IH.
    + by eapply IH.
Qed.


(** ** [Download] *)

Lemma defaultChunkSize_pos : 0 < defaultChunkSize.
Proof. unfold defaultChunkSize. lia. Qed.

(** One iteration for each byte and one for the end of the file are enough
    fuel, whatever fails. *)
Lemma Download_loop_fuel env size :
  0 < size →
  ∀ fuel rest k ns sent,
    length rest < fuel →
    is_Some (Download_loop env size fuel rest k ns sent).
Proof.
  intros Hsize. induction fuel as [|fuel IH]; intros rest k ns sent Hlen;
    [lia|].
  simpl. destruct rest as [|b rest]; [by eexists|].
  destruct (file_Read_err env k); [by eexists|].
  destruct (stream_Send_err env ns); [by eexists|].
  apply IH. rewrite length_drop. simpl in *. lia.
Qed.

(** Without failures the loop sends the file cut into pieces of [size]
    bytes, in the order of the file. *)
Lemma Download_loop_chunks env size :
  0 < size →
  (∀ k, file_Read_err env k = None) →
  (∀ k, stream_Send_err env k = None) →
  ∀ fuel rest k ns sent,
    length rest < fuel →
    ∃ cs,
      Download_loop env size fuel rest k ns sent =
        Some (sent ++ (DownloadResponse_Chunk <$> cs), None) ∧
      concat cs = rest ∧
      (∀ i c, cs !! i = Some c →
         c ≠ [] ∧ c = take size (drop (i * size) rest)) ∧
      length rest ≤ length cs * size < length rest + size.
Proof.
  intros Hsize Hread Hsend.
  induction fuel as [|fuel IH]; intros rest k ns sent Hlen; [lia|].
  simpl. destruct rest as [|b rest].
  { exists []. split; [by rewrite app_nil_r|]. split; [done|].
    split; [intros i c Hc; by rewrite lookup_nil in Hc|]. simpl. lia. }
  rewrite Hread, Hsend.
  set (l := b :: rest) in *.
  set (n := Nat.min size (length l)).
  assert (Hn : 0 < n) by (subst n l; simpl; lia).
  destruct (IH (drop n l) (S k) (S ns)
              (sent ++ [DownloadResponse_Chunk (take n l)]))
    as (cs & E & Hcat & Hith & Hcnt).
  { rewrite length_drop. lia. }
  assert (Htake : take n l = take size l).
  { subst n. destruct (Nat.min_spec size (length l)) as [[_ ->]|[Hle ->]];
      [done|]. by rewrite !take_ge by lia. }
  exists (take n l :: cs). split; [|split; [|split]].
  - rewrite E. simpl. by rewrite <-app_assoc.
  - simpl. rewrite Hcat. apply take_drop.
  - intros [|i] c Hc; simpl in Hc.
    + injection Hc as <-. split; [|by rewrite Htake].
      intros Hnil. apply (f_equal length) in Hnil.
      rewrite length_take in Hnil. simpl in Hnil. lia.
    + destruct (Hith i c Hc) as [Hne Hc']. split; [done|].
      destruct (decide (n = size)) as [Heq|Hneq].
      * rewrite Hc', drop_drop, Heq. reflexivity.
      * exfalso. assert (Hd : drop n l = []).
        { apply drop_ge. subst n. lia. }
        rewrite Hd, drop_nil, take_nil in Hc'. done.
  - rewrite length_drop in Hcnt.
    change (length (take n l :: cs)) with (S (length cs)).
    assert (Hl : 0 < length l) by (subst l; simpl; lia).
    clearbody l. rewrite Nat.mul_succ_l.
    destruct (Nat.min_spec size (length l)) as [[Hlt Hm]|[Hle Hm]];
      fold n in Hm; rewrite Hm in Hcnt; [lia|].
    destruct (length cs) as [|c]; [simpl; lia|].
    rewrite Nat.mul_succ_l in Hcnt. lia.
Qed.


(** Chunk messages after the file is open are appended to its blob. *)
Lemma Upload_loop_chunks env f chunks :
  (∀ k, file_Write_err env k = None) →
  ∀ vars nw st,
    up_file vars = Some f →
    ∃ st1,
      Upload_loop env ((λ c, RecvMsg (UploadRequest_Chunk c)) <$> chunks)
        vars nw st = (inl vars, st1) ∧
      heap st1 = heap st ∧
      files st1 = files st ∧
      disk st1 !! f = (λ old, old ++ concat chunks) <$> disk st !! f.
Proof.
  intros Hw. induction chunks as [|c chunks IH]; intros vars nw st Hfile.
  - exists st. simpl. repeat split.
    destruct (disk st !! f); simpl; [by rewrite app_nil_r|done].
  - simpl. rewrite Hfile. unfold file_Write. rewrite Hw.
    destruct (IH vars (S nw)
                (set_disk (alter (λ old, old ++ c) f (disk st)) st) Hfile)
      as (st1 & E & Hh & Hf & Hd).
    exists st1. split; [done|]. split; [done|]. split; [done|].
    rewrite Hd. simpl. rewrite lookup_alter_eq.
    destruct (disk st !! f); simpl; [by rewrite app_assoc|done].
Qed.

Lemma received_chunks_fmap cs :
  received_chunks (DownloadResponse_Chunk <$> cs) = concat cs.
Proof.
  induction cs as [|c cs IH]; [done|].
  rewrite fmap_cons. cbn [received_chunks]. by rewrite IH.
Qed.

(** The chunk size is a large number, and the loop is described by
    [Download_loop_chunks]: neither is unfolded from here on. *)
Arguments defaultChunkSize : simpl never.
Arguments Download_loop : simpl never.

(** C4: when a client uploads the bytes [concat chunks], cut into chunk
    messages in any way, under a valid filename that is not in the store,
    and nothing fails, a download of that filename sends the metadata
    message and then the bytes in pieces of [defaultChunkSize] bytes, in
    the order of the file, none of them empty, up to the end of the file;
    what the client writes into its local file is exactly [concat chunks].
    This holds for every length of the file, so also for 0, 1 and the
    lengths around the chunk size; the number [length cs] of pieces is the
    length divided by the chunk size, rounded up. *)
Theorem Upload_then_Download env1 env2 st f size chunks :
  filepath_Base f = f →
  files st !! f = None →
  os_Create_err env1 f = None →
  (∀ k, file_Write_err env1 k = None) →
  file_Close_err env1 = None →
  stream_SendAndClose_err env1 = None →
  os_Open_err env2 f = None →
  (∀ k, file_Read_err env2 k = None) →
  (∀ k, stream_Send_err env2 k = None) →
  ∃ resp st1 cs st2,
    Server_Upload env1 (upload_stream f size chunks) st = Some (Ok resp, st1) ∧
    Server_Download env2 f st1 =
      Some (DownloadResponse_Metadata f size :: (DownloadResponse_Chunk <$> cs),
            None, st2) ∧
    handleDownload
      (DownloadResponse_Metadata f size :: (DownloadResponse_Chunk <$> cs))
      = Ok (concat chunks) ∧
    concat cs = concat chunks ∧
    (∀ i c, cs !! i = Some c →
       c ≠ [] ∧
       c = take defaultChunkSize (drop (i * defaultChunkSize) (concat chunks))) ∧
    length (concat chunks) ≤ length cs * defaultChunkSize
      < length (concat chunks) + defaultChunkSize.
Proof.
  intros Hbase Hfree Hcreate Hwrite Hclose Hsac Hopen Hread Hsend.
  (* the receive loop *)
  destruct (Upload_loop_chunks env1 f chunks Hwrite
              (mkUploadVars f size (Some f)) 0
              (set_disk (<[f := []]> (disk st)) st) eq_refl)
    as (stL & HL & Hh & Hf & Hd).
  simpl in Hh, Hf, Hd. rewrite lookup_insert_eq in Hd. simpl in Hd.
  assert (HL' : Upload_loop env1 (upload_stream f size chunks)
                  (mkUploadVars "" 0 None) 0 st
                = (inl (mkUploadVars f size (Some f)), stL)).
  { unfold upload_stream. simpl. rewrite Hbase, String.eqb_refl. simpl.
    unfold os_Create. rewrite Hcreate. exact HL. }
  (* the end of Upload *)
  pose proof (Upload_run_finish env1 _ st _ stL HL' Hclose) as HU.
  simpl in HU. rewrite Hf, Hfree, Hsac, Hh in HU.
  set (r := mkFileMeta f size (time_Now env1) (time_Now env1)) in *.
  set (st1 := mkState (heap st ++ [r; r])
                      (<[f := S (length (heap st))]> (files st)) (disk stL))
    in *.
  (* the download *)
  assert (HG : Get f st1 =
                 Some (Ok (length (heap st1)), set_heap (heap st1 ++ [r]) st1)).
  { apply (Get_present st1 f (S (length (heap st)))).
    - apply lookup_insert_eq.
    - apply lookup_filed. }
  destruct (Download_loop_chunks env2 defaultChunkSize defaultChunkSize_pos
              Hread Hsend (S (length (concat chunks))) (concat chunks) 0 1
              [DownloadResponse_Metadata f size])
    as (cs & HD & Hcat & Hith & Hcnt); [lia|].
  eexists _, st1, cs, _. split; [|split; [|split; [|split; [|split]]]].
  - unfold Server_Upload. rewrite HU. reflexivity.
  - unfold Server_Download. rewrite HG. simpl.
    unfold os_Open. rewrite Hopen.
    change (disk (set_heap ((heap st ++ [r; r]) ++ [r]) st1))
      with (disk stL).
    rewrite Hd, (lookup_app_r (heap st ++ [r; r]) [r]) by lia.
    rewrite Nat.sub_diag. simpl. rewrite Hsend, HD. reflexivity.
  - unfold handleDownload. by rewrite received_chunks_fmap, Hcat.
  - done.
  - done.
  - done.
Qed.


(** ** The invariant is kept *)

Lemma wf_new : wf NewInMemoryMetadataStore.
Proof. intros f p H. simpl in H. by rewrite lookup_empty in H. Qed.

Lemma wf_same a b : heap a = heap b → files a = files b → wf b → wf a.
Proof. intros Hh Hf Hwf f p. rewrite Hh, Hf. apply Hwf. Qed.

Lemma wf_refile st meta m m' :
  wf st →
  heap st !! meta = Some m →
  Filename m' = Filename m →
  wf (mkState (<[meta := m']> (heap st) ++ [m'])
              (<[Filename m := length (heap st)]> (files st)) (disk st)).
Proof.
  intros Hwf Hm Hname f p Hp. simpl in *.
  destruct (decide (f = Filename m)) as [->|Hne].
  - rewrite lookup_insert_eq in Hp. injection Hp as <-. exists m'.
    split; [|done]. rewrite lookup_app_r; rewrite length_insert; [|lia].
    by replace (length (heap st) - length (heap st)) with 0 by lia.
  - rewrite lookup_insert_ne in Hp by done.
    destruct (Hwf f p Hp) as (x & Hx & E). exists x. split; [|done].
    apply lookup_app_l_Some. rewrite list_lookup_insert_ne; [done|].
    intros ->. rewrite Hm in Hx. injection Hx as <-. done.
Qed.

Lemma wf_Create st meta now r st1 :
  wf st → Create meta now st = Some (r, st1) → wf st1.
Proof.
  intros Hwf H. destruct (heap st !! meta) as [m|] eqn:Hm;
    [|by unfold Create in H; rewrite Hm in H].
  destruct (files st !! Filename m) as [q|] eqn:Hq.
  - rewrite (Create_taken st meta m now q Hm Hq) in H. by injection H as <- <-.
  - rewrite (Create_fresh st meta m now Hm Hq) in H. injection H as <- <-.
    by apply wf_refile.
Qed.

Lemma wf_Update st meta now r st1 :
  wf st → Update meta now st = Some (r, st1) → wf st1.
Proof.
  intros Hwf H. destruct (heap st !! meta) as [m|] eqn:Hm;
    [|by unfold Update in H; rewrite Hm in H].
  destruct (files st !! Filename m) as [q|] eqn:Hq.
  - rewrite (Update_present st meta m now q Hm Hq) in H. injection H as <- <-.
    by apply wf_refile.
  - unfold Update in H. rewrite Hm in H. simpl in H. rewrite Hq in H.
    by injection H as <- <-.
Qed.

Lemma wf_Delete st f : wf st → wf (Delete f st).2.
Proof.
  intros Hwf. unfold Delete. destruct (files st !! f) eqn:Hf; [|done].
  intros g p Hp. simpl in *. apply lookup_delete_Some in Hp as [_ Hp].
  by apply Hwf.
Qed.

Lemma wf_Get st f r st1 : wf st → Get f st = Some (r, st1) → wf st1.
Proof.
  intros Hwf H. unfold Get in H. destruct (files st !! f) as [p|] eqn:Hp.
  - destruct (Hwf f p Hp) as (m & Hm & _). rewrite Hm in H. simpl in H.
    injection H as <- <-. by apply wf_grow.
  - by injection H as <- <-.
Qed.

Lemma wf_List st prefix r st1 : wf st → List prefix st = Some (r, st1) → wf st1.
Proof.
  intros Hwf H. rewrite List_eq in H by done. injection H as <- <-.
  by apply wf_grow.
Qed.

Lemma wf_Server_Upload env stream st r st1 :
  wf st → Server_Upload env stream st = Some (r, st1) → wf st1.
Proof.
  intros Hwf H. unfold Server_Upload, Upload_run in H.
  destruct (Upload_loop env stream (mkUploadVars "" 0 None) 0 st)
    as [[vars|[[vars exit] err]] stL] eqn:HL;
    destruct (Upload_loop_frame _ _ _ _ _ _ _ HL) as [Hh Hf];
    pose proof (wf_same stL st Hh Hf Hwf) as HwL;
    [|by injection H as <- <-].
  destruct (match up_file vars with
            | Some _ => file_Close_err env
            | None => None
            end); [by injection H as <- <-|].
  pose proof (Create_of_new stL (up_filename vars) (up_fileSize vars)
                (time_Now env)) as E.
  simpl in E, H. rewrite E in H.
  assert (Hw2 : wf (alloc (mkFileMeta (up_filename vars) (up_fileSize vars)
                                      zeroTime zeroTime) stL).2)
    by by apply wf_grow.
  destruct (files stL !! up_filename vars); simpl in H.
  - injection H as <- <-.
    match goal with
    | |- wf (os_Remove env ?n ?s).2 =>
        destruct (os_Remove_frame env n s) as [Hh' Hf']
    end.
    by eapply wf_same.
  - pose proof (wf_Create _ _ _ _ _ Hw2 E) as Hw3.
    by destruct (stream_SendAndClose_err env); injection H as <- <-.
Qed.

(** [Download] returns in every state that satisfies the invariant. *)
Lemma Server_Download_total env f st :
  wf st → is_Some (Server_Download env f st).
Proof.
  intros Hwf. unfold Server_Download.
  destruct (files st !! f) as [p|] eqn:Hp.
  - destruct (Hwf f p Hp) as (m & Hm & _).
    rewrite (Get_present st f p m Hp Hm).
    cbn [mbind option_bind].
    destruct (os_Open env f (set_heap (heap st ++ [m]) st)); [|by eexists].
    change (heap (set_heap (heap st ++ [m]) st)) with (heap st ++ [m]).
    rewrite lookup_app_r by lia. rewrite Nat.sub_diag.
    cbn [lookup list_lookup mbind option_bind].
    destruct (stream_Send_err env 0); [by eexists|].
    destruct (Download_loop_fuel env defaultChunkSize defaultChunkSize_pos
                (S (length a)) a 0 1
                [DownloadResponse_Metadata (Filename m) (Size m)])
      as [[sent res] ->]; [lia|].
    by eexists.
  - rewrite (Get_absent st f Hp). by eexists.
Qed.


(** ** The sample data *)

Lemma wf_uploaded_state : wf uploaded_state.
Proof.
  intros f p H. simpl in H. apply lookup_singleton_Some in H as [<- <-].
  by exists uploaded_meta.
Qed.

Lemma short_upload_result :
  Server_Upload (reliable t100) short_upload NewInMemoryMetadataStore =
    Some (Ok (mkUploadResponse true "File 'a.txt' uploaded successfully"
                               "a.txt"),
          uploaded_state).
Proof. vm_compute. reflexivity. Qed.

(** C1 fails on the code: a client declares 5 bytes and sends 3; the upload
    completes, the record filed has size 5 and the blob has 3 bytes. *)
Lemma Upload_size_is_not_bytes_written :
  Server_Upload (reliable t100) short_upload NewInMemoryMetadataStore =
    Some (Ok (mkUploadResponse true "File 'a.txt' uploaded successfully"
                               "a.txt"),
          uploaded_state) ∧
  Size <$> store_view uploaded_state !! "a.txt" = Some 5%Z ∧
  length <$> disk uploaded_state !! "a.txt" = Some 3 ∧
  Size <$> store_view uploaded_state !! "a.txt" ≠
    (λ blob, Z.of_nat (length blob)) <$> disk uploaded_state !! "a.txt".
Proof.
  split; [exact short_upload_result|].
  split; [vm_compute; reflexivity|].
  split; [vm_compute; reflexivity|].
  vm_compute. discriminate.
Qed.

(** C2 fails on the code: an upload under a name that is already in the
    store fails at [Create] after its blob was written; the error is
    returned and the blob removed, and a record of that filename is in the
    store. *)
Lemma failed_Upload_record_remains :
  ∃ st2,
    Server_Upload (reliable t200) second_upload uploaded_state =
      Some (Err (ErrWrap "failed to store metadata: " ErrFileAlreadyExists),
            st2) ∧
    disk st2 !! "a.txt" = None ∧
    store_view st2 !! "a.txt" = Some uploaded_meta ∧
    store_view st2 !! "a.txt" ≠ None.
Proof.
  eexists. split; [vm_compute; reflexivity|].
  split; [vm_compute; reflexivity|].
  split; [vm_compute; reflexivity|].
  vm_compute. discriminate.
Qed.

(** The return after a failed [Close] does not remove the blob: the upload
    fails, no record is filed and the blob stays. *)
Example Upload_close_failure_keeps_blob :
  ∃ st1,
    Server_Upload close_fails short_upload NewInMemoryMetadataStore =
      Some (Err (ErrWrap "failed to close file: " (ErrExternal "close")),
            st1) ∧
    store_view st1 !! "a.txt" = None ∧
    disk st1 !! "a.txt" = Some ["001"; "002"; "003"]%byte.
Proof.
  eexists. split; [vm_compute; reflexivity|].
  split; vm_compute; reflexivity.
Qed.

(** C3 fails on the code: a record filed at [t100] has creation time
    [t100]; the caller sets the creation time of its record to [t7] and
    calls [Update]; the record filed then has creation time [t7]. *)
Lemma Update_changes_CreatedAt :
  Create 0 t100 caller_state = Some (None, filed_state) ∧
  CreatedAt <$> store_view filed_state !! "a.txt" = Some t100 ∧
  ∃ st2,
    Update 0 t200 (store 0 (mkFileMeta "a.txt" 3 t7 t100) filed_state) =
      Some (None, st2) ∧
    CreatedAt <$> store_view st2 !! "a.txt" = Some t7 ∧
    CreatedAt <$> store_view st2 !! "a.txt" ≠
      CreatedAt <$> store_view filed_state !! "a.txt".
Proof.
  split; [vm_compute; reflexivity|].
  split; [vm_compute; reflexivity|].
  eexists. split; [vm_compute; reflexivity|].
  split; [vm_compute; reflexivity|].
  vm_compute. discriminate.
Qed.


(** ** The theorems at the sample data *)

Lemma Create_then_Get_witness :
  heap caller_state !! 0 = Some sample_meta ∧
  files caller_state !! "a.txt" = None ∧
  ∃ st1 r st2,
    Create 0 t100 caller_state = Some (None, st1) ∧
    store_view st1 !! "a.txt" = Some (stamped t100 sample_meta) ∧
    Get "a.txt" st1 = Some (Ok r, st2) ∧
    heap st2 !! r = Some (stamped t100 sample_meta).
Proof.
  split; [reflexivity|]. split; [reflexivity|].
  exact (proj1 (Create_then_Get caller_state 0 sample_meta t100 eq_refl)
               eq_refl).
Defined.

Lemma Create_Update_write_argument_witness :
  heap filed_state !! 0 = Some (stamped t100 sample_meta) ∧
  is_Some (files filed_state !! "a.txt") ∧
  ∃ st1 stored,
    Update 0 t200 filed_state = Some (None, st1) ∧
    heap st1 !! 0 = Some (with_ModifiedAt t200 (stamped t100 sample_meta)) ∧
    files st1 !! "a.txt" = Some stored ∧
    stored ≠ 0 ∧
    heap st1 !! stored =
      Some (with_ModifiedAt t200 (stamped t100 sample_meta)).
Proof.
  split; [reflexivity|].
  assert (H : is_Some (files filed_state !! "a.txt"))
    by (exists 1; reflexivity).
  split; [exact H|].
  exact (proj2 (Create_Update_write_argument filed_state 0
                  (stamped t100 sample_meta) t200 eq_refl) H).
Defined.

Lemma Update_files_callers_CreatedAt_witness :
  heap (store 0 (mkFileMeta "a.txt" 3 t7 t100) filed_state) !! 0 =
    Some (mkFileMeta "a.txt" 3 t7 t100) ∧
  store_view (store 0 (mkFileMeta "a.txt" 3 t7 t100) filed_state) !! "a.txt" =
    Some (stamped t100 sample_meta) ∧
  ∃ st1,
    Update 0 t200 (store 0 (mkFileMeta "a.txt" 3 t7 t100) filed_state) =
      Some (None, st1) ∧
    store_view st1 !! "a.txt" = Some (mkFileMeta "a.txt" 3 t7 t200) ∧
    CreatedAt <$> store_view st1 !! "a.txt" = Some t7 ∧
    (CreatedAt <$> store_view st1 !! "a.txt" = Some t100 ↔ t7 = t100).
Proof.
  split; [reflexivity|]. split; [vm_compute; reflexivity|].
  exact (proj2 (Update_files_callers_CreatedAt
                  (store 0 (mkFileMeta "a.txt" 3 t7 t100) filed_state) 0
                  (mkFileMeta "a.txt" 3 t7 t100) t200 eq_refl)
               (stamped t100 sample_meta) eq_refl).
Defined.

Lemma absent_file_answers_witness :
  files uploaded_state !! "b.txt" = None ∧
  Server_Stat "b.txt" uploaded_state =
    Some (Ok (mkStatResponse false None), uploaded_state) ∧
  Server_Delete (reliable t200) "b.txt" uploaded_state =
    (Ok (mkDeleteResponse false "file not found: b.txt"), uploaded_state) ∧
  Server_Download (reliable t200) "b.txt" uploaded_state =
    Some ([], Some (ErrText "file not found: b.txt"), uploaded_state).
Proof.
  split; [reflexivity|].
  exact (absent_file_answers (reliable t200) uploaded_state "b.txt" eq_refl).
Defined.

Lemma List_returns_matching_witness :
  wf uploaded_state ∧
  ∃ ps ms st1,
    List "a" uploaded_state = Some (Ok ps, st1) ∧
    mapM (λ p, heap st1 !! p) ps = Some ms ∧
    (∀ m, m ∈ ms ↔
       ∃ f, store_view uploaded_state !! f = Some m ∧ starts_with "a" f) ∧
    NoDup ms ∧
    (∀ p, p ∈ ps → length (heap uploaded_state) ≤ p) ∧
    store_view st1 = store_view uploaded_state ∧
    ("a" = "" → ∀ f m, store_view uploaded_state !! f = Some m → m ∈ ms) ∧
    ((∀ f, is_Some (files uploaded_state !! f) → ¬ starts_with "a" f) →
     ps = []).
Proof.
  split; [exact wf_uploaded_state|].
  exact (List_returns_matching uploaded_state "a" wf_uploaded_state).
Defined.

Lemma returned_copies_isolated_witness :
  wf uploaded_state ∧
  Get "a.txt" uploaded_state =
    Some (Ok 2, set_heap (heap uploaded_state ++ [uploaded_meta])
                         uploaded_state) ∧
  Forall (λ w : loc * FileMeta, w.1 = 2) sample_writes ∧
  is_Some (run_queries sample_queries
             (set_heap (heap uploaded_state ++ [uploaded_meta])
                       uploaded_state)) ∧
  run_queries sample_queries
    (caller_writes sample_writes
       (set_heap (heap uploaded_state ++ [uploaded_meta]) uploaded_state)) =
  run_queries sample_queries
    (set_heap (heap uploaded_state ++ [uploaded_meta]) uploaded_state).
Proof.
  assert (Hws : Forall (λ w : loc * FileMeta, w.1 = 2) sample_writes)
    by (repeat constructor).
  split; [exact wf_uploaded_state|]. split; [reflexivity|].
  split; [exact Hws|].
  exact (proj2 (proj1 (returned_copies_isolated uploaded_state
                         wf_uploaded_state) "a.txt" 2 _ eq_refl)
               sample_writes sample_queries Hws).
Defined.

Lemma Upload_of_no_message_witness :
  files NewInMemoryMetadataStore !! "" = None ∧
  ∃ st1 p,
    Server_Upload (reliable t100) [] NewInMemoryMetadataStore =
      Some (Ok (mkUploadResponse true "File '' uploaded successfully" ""),
            st1) ∧
    files st1 !! "" = Some p ∧
    heap st1 !! p = Some (mkFileMeta "" 0 t100 t100).
Proof.
  split; [reflexivity|].
  exact (proj1 (Upload_of_no_message (reliable t100) NewInMemoryMetadataStore)
               eq_refl).
Defined.

Lemma Upload_files_declared_size_witness :
  Server_Upload (reliable t100) short_upload NewInMemoryMetadataStore =
    Some (Ok (mkUploadResponse true "File 'a.txt' uploaded successfully"
                               "a.txt"),
          uploaded_state) ∧
  store_view uploaded_state !! "a.txt" = Some (mkFileMeta "a.txt" 5 t100 t100) ∧
  FileId (mkUploadResponse true "File 'a.txt' uploaded successfully" "a.txt")
    = "a.txt".
Proof.
  assert (H : Server_Upload (reliable t100) short_upload
                NewInMemoryMetadataStore =
              Some (Ok (mkUploadResponse true
                          "File 'a.txt' uploaded successfully" "a.txt"),
                    uploaded_state))
    by (vm_compute; reflexivity).
  split; [exact H|].
  exact (Upload_files_declared_size (reliable t100) short_upload
           NewInMemoryMetadataStore _ uploaded_state H).
Defined.

Lemma Upload_abort_removes_blob_witness :
  wf uploaded_state ∧
  os_Remove_err (reliable t200) "a.txt" = None ∧
  ∃ st2,
    Upload_run (reliable t200) second_upload uploaded_state =
      Some (mkUploadVars "a.txt" 1 (Some "a.txt"), ExitStoreMetadata,
            Err (ErrWrap "failed to store metadata: " ErrFileAlreadyExists),
            st2) ∧
    disk st2 !! "a.txt" = None ∧
    files st2 = files uploaded_state ∧
    store_view st2 = store_view uploaded_state.
Proof.
  split; [exact wf_uploaded_state|]. split; [reflexivity|].
  eexists. split; [vm_compute; reflexivity|].
  refine (Upload_abort_removes_blob (reliable t200) second_upload
            uploaded_state (mkUploadVars "a.txt" 1 (Some "a.txt"))
            ExitStoreMetadata _ _ wf_uploaded_state _
            (or_intror (or_intror eq_refl)) eq_refl).
  vm_compute. reflexivity.
Defined.

Lemma Upload_then_Download_witness :
  filepath_Base "a.txt" = "a.txt" ∧
  files NewInMemoryMetadataStore !! "a.txt" = None ∧
  ∃ resp st1 cs st2,
    Server_Upload (reliable t100)
      (upload_stream "a.txt" 5 [["001"; "002"]; []; ["003"]]%byte)
      NewInMemoryMetadataStore = Some (Ok resp, st1) ∧
    Server_Download (reliable t200) "a.txt" st1 =
      Some (DownloadResponse_Metadata "a.txt" 5
              :: (DownloadResponse_Chunk <$> cs), None, st2) ∧
    handleDownload
      (DownloadResponse_Metadata "a.txt" 5 :: (DownloadResponse_Chunk <$> cs))
      = Ok ["001"; "002"; "003"]%byte ∧
    concat cs = ["001"; "002"; "003"]%byte ∧
    (∀ i c, cs !! i = Some c →
       c ≠ [] ∧
       c = take defaultChunkSize
             (drop (i * defaultChunkSize) ["001"; "002"; "003"]%byte)) ∧
    3 ≤ length cs * defaultChunkSize < 3 + defaultChunkSize.
Proof.
  assert (Hb : filepath_Base "a.txt" = "a.txt") by (vm_compute; reflexivity).
  split; [exact Hb|]. split; [reflexivity|].
  exact (Upload_then_Download (reliable t100) (reliable t200)
           NewInMemoryMetadataStore "a.txt" 5
           [["001"; "002"]; []; ["003"]]%byte
           Hb eq_refl eq_refl (λ _, eq_refl) eq_refl eq_refl eq_refl
           (λ _, eq_refl) (λ _, eq_refl)).
Defined.


(** ** The invariant holds while the master runs *)

Lemma wf_Server_Download env f st out st1 :
  wf st → Server_Download env f st = Some (out, st1) → wf st1.
Proof.
  intros Hwf H. unfold Server_Download in H.
  destruct (Get f st) as [[r stG]|] eqn:HG; [|done].
  pose proof (wf_Get _ _ _ _ Hwf HG) as HwG. cbn [mbind option_bind] in H.
  destruct r as [meta|err].
  - destruct (os_Open env f stG); [|by injection H as <- <-].
    destruct (heap stG !! meta); [|done]. cbn [mbind option_bind] in H.
    destruct (stream_Send_err env 0); [by injection H as <- <-|].
    destruct (Download_loop env defaultChunkSize (S (length a)) a 0 1 _)
      as [[sent res]|]; [|done].
    by injection H as <- <-.
  - by destruct (errors_Is err ErrFileNotFound); injection H as <- <-.
Qed.

Lemma wf_Server_List prefix st r st1 :
  wf st → Server_List prefix st = Some (r, st1) → wf st1.
Proof.
  intros Hwf H. unfold Server_List in H.
  destruct (List prefix st) as [[l stL]|] eqn:HL; [|done].
  pose proof (wf_List _ _ _ _ Hwf HL) as HwL. cbn [mbind option_bind] in H.
  destruct l as [fs|err]; [|by injection H as <- <-].
  destruct (mapM _ fs); [|done]. by injection H as <- <-.
Qed.

Lemma wf_Server_Delete env f st : wf st → wf (Server_Delete env f st).2.
Proof.
  intros Hwf. unfold Server_Delete.
  destruct (negb (Exists f st)); [done|].
  destruct (os_Remove env f st) as [removed stR] eqn:HR.
  assert (HwR : wf stR).
  { destruct (os_Remove_frame env f st) as [Hh Hf]. rewrite HR in Hh, Hf.
    by eapply wf_same. }
  destruct (match removed with
            | Some err => if os_IsNotExist err then None else Some err
            | None => None
            end); [done|].
  pose proof (wf_Delete stR f HwR) as HwD.
  by destruct (Delete f stR) as [[err|] stD].
Qed.

Lemma wf_Server_Stat f st r st1 :
  wf st → Server_Stat f st = Some (r, st1) → wf st1.
Proof.
  intros Hwf H. unfold Server_Stat in H.
  destruct (Get f st) as [[g stG]|] eqn:HG; [|done].
  pose proof (wf_Get _ _ _ _ Hwf HG) as HwG. cbn [mbind option_bind] in H.
  destruct g as [meta|err].
  - destruct (heap stG !! meta); [|done]. by injection H as <- <-.
  - by destruct (errors_Is err ErrFileNotFound); injection H as <- <-.
Qed.

(** Every state of the running master satisfies the invariant of the
    store. *)
Lemma reachable_wf st : reachable st → wf st.
Proof.
  induction 1 as [existing|env stream st r st1 _ IH H
                 |env f st sent r st1 _ IH H|prefix st r st1 _ IH H
                 |env f st _ IH|f st r st1 _ IH H].
  - intros f p H. simpl in H. by rewrite lookup_empty in H.
  - by eapply wf_Server_Upload.
  - by eapply wf_Server_Download.
  - by eapply wf_Server_List.
  - by apply wf_Server_Delete.
  - by eapply wf_Server_Stat.
Qed.

(** The loop of [Download] with a chunk size of 4, on files of 0, 1, 3, 4,
    5 and 19 bytes: the lengths of the chunks sent. *)
Example Download_loop_boundaries :
  (λ n, match Download_loop (reliable t100) 4 (S n) (replicate n "000"%byte)
                0 1 [] with
        | Some (sent, None) => Some (chunk_lengths sent)
        | _ => None
        end) <$> [0; 1; 3; 4; 5; 19] =
  [Some []; Some [1]; Some [3]; Some [4]; Some [4; 1]; Some [4; 4; 4; 4; 3]].
Proof. vm_compute. reflexivity. Qed.


(** * Further properties of the code *)

(** ** The metadata store: [Delete], [Exists], [Update] *)

Lemma store_view_delete st f :
  store_view (set_files (delete f (files st)) st) = delete f (store_view st).
Proof.
  apply map_eq. intros g. rewrite store_view_lookup. simpl.
  destruct (decide (g = f)) as [->|Hne].
  - by rewrite !lookup_delete_eq.
  - rewrite !lookup_delete_ne by done. by rewrite store_view_lookup.
Qed.

Lemma store_view_refile_other st meta m x g :
  wf st →
  heap st !! meta = Some m →
  g ≠ Filename m →
  store_view (mkState (<[meta := x]> (heap st) ++ [x])
                      (<[Filename m := length (heap st)]> (files st))
                      (disk st)) !! g
  = store_view st !! g.
Proof.
  intros Hwf Hm Hg. rewrite !store_view_lookup. simpl.
  rewrite lookup_insert_ne by done.
  destruct (files st !! g) as [q|] eqn:Hq; [|done]. simpl.
  destruct (Hwf g q Hq) as (y & Hy & E).
  transitivity (Some y); [|done].
  apply lookup_app_l_Some. rewrite list_lookup_insert_ne; [done|].
  intros ->. rewrite Hm in Hy. injection Hy as <-. done.
Qed.

(** X1: [Delete] of a filename that is in the store removes its record and
    nothing else: afterwards [Exists] is false and [Get] fails with
    [ErrFileNotFound] for it, the records of the other names and the blobs
    are as before; [Delete] of a filename that is not in the store fails
    with [ErrFileNotFound] and leaves the state as it was. *)
Theorem Delete_removes_record st f :
  (is_Some (files st !! f) →
   ∃ st1,
     Delete f st = (None, st1) ∧
     store_view st1 = delete f (store_view st) ∧
     Exists f st1 = false ∧
     Get f st1 = Some (Err ErrFileNotFound, st1) ∧
     heap st1 = heap st ∧ disk st1 = disk st) ∧
  (files st !! f = None → Delete f st = (Some ErrFileNotFound, st)).
Proof.
  split.
  - intros [p Hp]. unfold Delete. rewrite Hp. eexists. split; [done|].
    split; [apply store_view_delete|]. split; [|split]; simpl.
    + unfold Exists. simpl. rewrite lookup_delete_eq.
      apply bool_decide_eq_false_2. by intros [? ?].
    + apply Get_absent. simpl. apply lookup_delete_eq.
    + done.
  - intros Hf. unfold Delete. by rewrite Hf.
Qed.

(** X2: [Exists] tells what [Get] will do: in a state that satisfies the
    invariant of the store, [Exists] is true exactly when [Get] returns a
    record, and false exactly when [Get] fails with [ErrFileNotFound]. *)
Theorem Exists_agrees_with_Get st f :
  wf st →
  (Exists f st = true ↔ ∃ p st1, Get f st = Some (Ok p, st1)) ∧
  (Exists f st = false ↔ Get f st = Some (Err ErrFileNotFound, st)).
Proof.
  intros Hwf. unfold Exists.
  destruct (files st !! f) as [q|] eqn:Hq.
  - destruct (Hwf f q Hq) as (m & Hm & _).
    rewrite (Get_present st f q m Hq Hm).
    rewrite bool_decide_eq_true_2 by by eexists.
    split; split; try done. intros _. by eexists _, _.
  - rewrite (Get_absent st f Hq).
    rewrite bool_decide_eq_false_2 by by intros [? ?].
    split; split; try done. by intros (? & ? & ?).
Qed.

(** X3: a call of the store that returns an error has changed nothing, and
    the only errors are the two of the package: [Create] fails only with
    [ErrFileAlreadyExists], and [Update], [Delete] and [Get] only with
    [ErrFileNotFound]; in each case the state, with the caller's record in
    it, is the one from before the call. *)
Theorem store_errors_change_nothing st :
  (∀ meta now e st1,
     Create meta now st = Some (Some e, st1) →
     e = ErrFileAlreadyExists ∧ st1 = st) ∧
  (∀ meta now e st1,
     Update meta now st = Some (Some e, st1) →
     e = ErrFileNotFound ∧ st1 = st) ∧
  (∀ f e st1, Delete f st = (Some e, st1) → e = ErrFileNotFound ∧ st1 = st) ∧
  (∀ f e st1, Get f st = Some (Err e, st1) → e = ErrFileNotFound ∧ st1 = st).
Proof.
  split; [|split; [|split]].
  - intros meta now e st1 H. unfold Create in H.
    destruct (heap st !! meta) as [m|]; [|done]. simpl in H.
    destruct (files st !! Filename m); [|done]. by injection H as <- <-.
  - intros meta now e st1 H. unfold Update in H.
    destruct (heap st !! meta) as [m|]; [|done]. simpl in H.
    destruct (files st !! Filename m); [done|]. by injection H as <- <-.
  - intros f e st1 H. unfold Delete in H.
    destruct (files st !! f); [done|]. by injection H as <- <-.
  - intros f e st1 H. unfold Get in H.
    destruct (files st !! f) as [p|]; [|by injection H as <- <-].
    destruct (heap st !! p); done.
Qed.

(** X4: [Create] and [Update] change the record of one filename only: in a
    state that satisfies the invariant, after a call that succeeds the
    records filed under every other name, and the blobs, are as before. *)
Theorem Create_Update_leave_other_records st meta now st1 :
  wf st →
  (Create meta now st = Some (None, st1) ∨
   Update meta now st = Some (None, st1)) →
  ∃ m, heap st !! meta = Some m ∧
    (∀ g, g ≠ Filename m → store_view st1 !! g = store_view st !! g) ∧
    disk st1 = disk st.
Proof.
  intros Hwf H.
  destruct (heap st !! meta) as [m|] eqn:Hm;
    [|destruct H as [H|H]; unfold Create, Update in H; by rewrite Hm in H].
  exists m. split; [done|].
  destruct (files st !! Filename m) as [q|] eqn:Hq.
  - destruct H as [H|H].
    + by rewrite (Create_taken st meta m now q Hm Hq) in H.
    + rewrite (Update_present st meta m now q Hm Hq) in H.
      injection H as <-.
      split; [intros; by apply store_view_refile_other|done].
  - destruct H as [H|H].
    + rewrite (Create_fresh st meta m now Hm Hq) in H.
      injection H as <-.
      split; [intros; by apply store_view_refile_other|done].
    + unfold Update in H. rewrite Hm in H. simpl in H. by rewrite Hq in H.
Qed.

(** X5: [Create] followed by [Delete] of the same filename gives back the
    records there were: in a state that satisfies the invariant, when
    [Create] succeeds, deleting the filename it filed succeeds and leaves
    the store with exactly the records from before the [Create]. *)
Theorem Create_then_Delete st meta m now st1 :
  wf st →
  heap st !! meta = Some m →
  Create meta now st = Some (None, st1) →
  ∃ st2,
    Delete (Filename m) st1 = (None, st2) ∧
    store_view st2 = store_view st.
Proof.
  intros Hwf Hm HC.
  destruct (files st !! Filename m) as [q|] eqn:Hq;
    [by rewrite (Create_taken st meta m now q Hm Hq) in HC|].
  rewrite (Create_fresh st meta m now Hm Hq) in HC. injection HC as <-.
  unfold Delete. simpl. rewrite lookup_insert_eq. eexists. split; [done|].
  unfold set_files. simpl. apply map_eq. intros g.
  destruct (decide (g = Filename m)) as [->|Hne].
  - rewrite !store_view_lookup. simpl. by rewrite lookup_delete_eq, Hq.
  - rewrite <-(store_view_refile_other st meta m (stamped now m) g Hwf Hm Hne).
    rewrite !store_view_lookup. simpl.
    by rewrite lookup_delete_ne, lookup_insert_ne by done.
Qed.


(** ** The validation of filenames *)

Lemma IsPathSeparator_true c : IsPathSeparator c = true ↔ c = "/"%char.
Proof. apply Ascii.eqb_eq. Qed.

Lemma elem_of_rev (c : ascii) l : c ∈ rev l ↔ c ∈ l.
Proof. rewrite !list_elem_of_In. symmetry. apply in_rev. Qed.

Lemma drop_separators_id l :
  "/"%char ∉ l → drop_separators l = l.
Proof.
  destruct l as [|c l]; [done|]. intros H. simpl.
  destruct (IsPathSeparator c) eqn:E; [|done].
  apply IsPathSeparator_true in E as ->. destruct H. apply list_elem_of_here.
Qed.

Lemma take_element_id l :
  "/"%char ∉ l → take_element l = l.
Proof.
  induction l as [|c l IH]; [done|]. intros H. simpl.
  destruct (IsPathSeparator c) eqn:E.
  - apply IsPathSeparator_true in E as ->. destruct H. apply list_elem_of_here.
  - f_equal. apply IH. intros Hin. apply H. by apply list_elem_of_further.
Qed.

Lemma take_element_no_separator l : "/"%char ∉ take_element l.
Proof.
  induction l as [|c l IH]; simpl; [by intros H%elem_of_nil|].
  destruct (IsPathSeparator c) eqn:E; [by intros H%elem_of_nil|].
  intros [<-|H]%elem_of_cons; [|done].
  by rewrite (proj2 (IsPathSeparator_true "/"%char) eq_refl) in E.
Qed.

(** What [filepath.Base] returns is "/" or a name without a separator that
    is not empty. *)
Lemma filepath_Base_shape path :
  filepath_Base path = "/" ∨
  (filepath_Base path ≠ "" ∧ ¬ has_separator (filepath_Base path)).
Proof.
  unfold filepath_Base. destruct (String.eqb path "").
  { right. split; [discriminate|]. unfold has_separator. simpl.
    intros [H|H%elem_of_nil]%elem_of_cons; [discriminate H|done]. }
  cbv zeta. set (elem := String.string_of_list_ascii _).
  destruct (String.eqb elem "") eqn:E'; [by left|]. right.
  apply String.eqb_neq in E'. split; [exact E'|]. subst elem.
  unfold has_separator. rewrite String.list_ascii_of_string_of_list_ascii.
  rewrite elem_of_rev. apply take_element_no_separator.
Qed.

(** The names that [filepath.Base] leaves as they are. *)
Lemma filepath_Base_fixed path :
  filepath_Base path = path ↔
  path = "/" ∨ (path ≠ "" ∧ ¬ has_separator path).
Proof.
  split.
  - intros H. pose proof (filepath_Base_shape path) as S.
    by rewrite H in S.
  - intros [->|[Hne Hsep]]; [reflexivity|].
    unfold filepath_Base, has_separator in *.
    rewrite (proj2 (String.eqb_neq path "") Hne).
    assert (Hrev : "/"%char ∉ rev (String.list_ascii_of_string path))
      by by rewrite elem_of_rev.
    rewrite (drop_separators_id _ Hrev), (take_element_id _ Hrev).
    rewrite rev_involutive, String.string_of_list_ascii_of_string.
    by rewrite (proj2 (String.eqb_neq path "") Hne).
Qed.

(** X6: the test [filepath.Base(filename) != filename] of [Upload] accepts
    "/" and the names that are not empty and have no separator in them, and
    no other name; and it accepts every name that is itself a result of
    [filepath.Base], as is the name that the command line client sends. *)
Theorem filename_validation path :
  (filepath_Base path = path ↔
   path = "/" ∨ (path ≠ "" ∧ ¬ has_separator path)) ∧
  filepath_Base (filepath_Base path) = filepath_Base path.
Proof.
  split; [apply filepath_Base_fixed|].
  apply filepath_Base_fixed, filepath_Base_shape.
Qed.

(** ** [Upload]: what it refuses *)

(** X7: an [Upload] whose first message declares the empty filename, or a
    filename other than "/" with a separator in it, returns the "invalid
    filename" error at that message, whatever follows on the stream; no
    blob is created and the state is the one from before the call. *)
Theorem Upload_refuses_separators env filename size rest st :
  filename = "" ∨ (has_separator filename ∧ filename ≠ "/") →
  Server_Upload env (RecvMsg (UploadRequest_Metadata filename size) :: rest) st
  = Some (Err (ErrText "invalid filename: must not contain path separators"),
          st).
Proof.
  intros H.
  assert (Hbad : String.eqb (filepath_Base filename) filename = false).
  { apply String.eqb_neq. intros Hfix. apply filepath_Base_fixed in Hfix.
    destruct H as [->|[Hsep Hne]], Hfix as [?|[? ?]]; done. }
  unfold Server_Upload, Upload_run. simpl. by rewrite Hbad.
Qed.

(** X8: an [Upload] on which a chunk arrives before any metadata message
    (messages with no data may come before it) returns the "received chunk
    before metadata" error at that chunk, whatever follows; nothing is
    written and the state is the one from before the call. *)
Theorem Upload_refuses_chunk_first env k chunk rest st :
  Server_Upload env
    (replicate k (RecvMsg UploadRequest_unset)
       ++ RecvMsg (UploadRequest_Chunk chunk) :: rest) st
  = Some (Err (ErrText "received chunk before metadata"), st).
Proof.
  unfold Server_Upload, Upload_run.
  assert (E : Upload_loop env
                (replicate k (RecvMsg UploadRequest_unset)
                   ++ RecvMsg (UploadRequest_Chunk chunk) :: rest)
                (mkUploadVars "" 0 None) 0 st
              = (inr (mkUploadVars "" 0 None, ExitChunkBeforeMetadata,
                      ErrText "received chunk before metadata"), st)).
  { induction k as [|k IH]; [done|]. simpl. exact IH. }
  by rewrite E.
Qed.


(** ** [Upload]: the state it leaves *)

Lemma set_disk_id st : set_disk (disk st) st = st.
Proof. by destruct st. Qed.

Lemma alter_app_nil (f : string) (d : gmap string (list byte)) :
  alter (λ old, old ++ []) f d = d.
Proof.
  apply map_eq. intros g. destruct (decide (f = g)) as [->|Hne].
  - rewrite lookup_alter_eq. destruct (d !! g); simpl; [|done].
    by rewrite app_nil_r.
  - by rewrite lookup_alter_ne.
Qed.

Lemma alter_app_app (f : string) (d : gmap string (list byte)) b1 b2 :
  alter (λ old, old ++ b2) f (alter (λ old, old ++ b1) f d)
  = alter (λ old, old ++ b1 ++ b2) f d.
Proof.
  apply map_eq. intros g. destruct (decide (f = g)) as [->|Hne].
  - rewrite !lookup_alter_eq. destruct (d !! g); simpl; [|done].
    by rewrite app_assoc.
  - by rewrite !lookup_alter_ne.
Qed.

Lemma alter_insert_nil (f : string) (d : gmap string (list byte)) b :
  alter (λ old, old ++ b) f (<[f := []]> d) = <[f := b]> d.
Proof.
  apply map_eq. intros g. destruct (decide (f = g)) as [->|Hne].
  - by rewrite lookup_alter_eq, !lookup_insert_eq.
  - by rewrite lookup_alter_ne, !lookup_insert_ne.
Qed.

(** The loop on chunk messages, with the whole state it leaves. *)
Lemma Upload_loop_chunks_state env f chunks :
  (∀ k, file_Write_err env k = None) →
  ∀ vars nw st,
    up_file vars = Some f →
    Upload_loop env ((λ c, RecvMsg (UploadRequest_Chunk c)) <$> chunks)
      vars nw st
    = (inl vars,
       set_disk (alter (λ old, old ++ concat chunks) f (disk st)) st).
Proof.
  intros Hw. induction chunks as [|c chunks IH]; intros vars nw st Hfile.
  - simpl. by rewrite alter_app_nil, set_disk_id.
  - simpl. rewrite Hfile. unfold file_Write. rewrite Hw.
    rewrite (IH vars (S nw) _ Hfile). simpl.
    by rewrite alter_app_app.
Qed.

(** The loop on the messages of a client that sends one metadata message
    and then the chunks, when creating and writing the file do not fail. *)
Lemma Upload_loop_upload_stream env f size chunks st :
  filepath_Base f = f →
  os_Create_err env f = None →
  (∀ k, file_Write_err env k = None) →
  Upload_loop env (upload_stream f size chunks) (mkUploadVars "" 0 None) 0 st
  = (inl (mkUploadVars f size (Some f)),
     set_disk (<[f := concat chunks]> (disk st)) st).
Proof.
  intros Hbase Hcreate Hwrite. unfold upload_stream. simpl.
  rewrite Hbase, String.eqb_refl. simpl. unfold os_Create. rewrite Hcreate.
  rewrite (Upload_loop_chunks_state env f chunks Hwrite); [|done].
  simpl. by rewrite alter_insert_nil.
Qed.

Lemma store_view_filed st name r :
  wf st →
  store_view (mkState (heap st ++ [r; r])
                      (<[name := S (length (heap st))]> (files st)) (disk st))
  = <[name := r]> (store_view st).
Proof.
  intros Hwf. apply map_eq. intros g. rewrite store_view_lookup. simpl.
  destruct (decide (name = g)) as [->|Hne].
  - rewrite !lookup_insert_eq. simpl. apply lookup_filed.
  - rewrite !lookup_insert_ne by done. rewrite store_view_lookup.
    destruct (files st !! g) as [q|] eqn:Hq; [|done]. simpl.
    destruct (Hwf g q Hq) as (y & Hy & _).
    transitivity (Some y); [by apply lookup_app_l_Some|done].
Qed.

(** The state that a complete upload of one file leaves. *)
Lemma Upload_upload_stream_commits env st f size chunks :
  wf st →
  filepath_Base f = f →
  files st !! f = None →
  os_Create_err env f = None →
  (∀ k, file_Write_err env k = None) →
  file_Close_err env = None →
  ∃ st1,
    Server_Upload env (upload_stream f size chunks) st =
      Some (match stream_SendAndClose_err env with
            | Some err => Err err
            | None =>
                Ok (mkUploadResponse true
                      ("File '" +:+ f +:+ "' uploaded successfully") f)
            end, st1) ∧
    store_view st1 =
      <[f := mkFileMeta f size (time_Now env) (time_Now env)]> (store_view st) ∧
    disk st1 = <[f := concat chunks]> (disk st).
Proof.
  intros Hwf Hbase Hfree Hcreate Hwrite Hclose.
  pose proof (Upload_loop_upload_stream env f size chunks st
                Hbase Hcreate Hwrite) as HL.
  pose proof (Upload_run_finish env _ st _ _ HL Hclose) as HU.
  simpl in HU. rewrite Hfree in HU.
  unfold Server_Upload. rewrite HU. eexists. split; [done|]. split; [|done].
  apply (store_view_filed
           (set_disk (<[f := concat chunks]> (disk st)) st) f). exact Hwf.
Qed.

(** X9: an [Upload] that goes through files the record and the blob of its
    one filename and changes nothing else.  For a client that sends one
    metadata message for a valid filename that is not in the store and then
    the chunks, when creating, writing and closing the file do not fail:
    the store afterwards is the store from before with the record of the
    declared name and size stamped with the current time, and the blobs are
    those from before with the blob of that name set to the bytes of the
    chunks in order.  This is so also when sending the response fails: the
    call then returns that error and the upload stays. *)
Theorem Upload_commits env st f size chunks :
  wf st →
  filepath_Base f = f →
  files st !! f = None →
  os_Create_err env f = None →
  (∀ k, file_Write_err env k = None) →
  file_Close_err env = None →
  ∃ st1,
    Server_Upload env (upload_stream f size chunks) st =
      Some (match stream_SendAndClose_err env with
            | Some err => Err err
            | None =>
                Ok (mkUploadResponse true
                      ("File '" +:+ f +:+ "' uploaded successfully") f)
            end, st1) ∧
    store_view st1 =
      <[f := mkFileMeta f size (time_Now env) (time_Now env)]> (store_view st) ∧
    disk st1 = <[f := concat chunks]> (disk st).
Proof. apply Upload_upload_stream_commits. Qed.

(** X10: an [Upload] under a filename that is already in the store destroys
    the blob of that file.  When creating, writing, closing and removing do
    not fail, the call truncates and rewrites the blob, fails at [Create]
    with the "already exists" error and then removes the blob: afterwards
    the record from before is still in the store, no blob of that name is
    left, the other blobs are as before, and a [Download] of the name fails
    at opening the file with nothing sent. *)
Theorem Upload_again_destroys_blob env env2 st f size chunks :
  wf st →
  filepath_Base f = f →
  is_Some (files st !! f) →
  os_Create_err env f = None →
  (∀ k, file_Write_err env k = None) →
  file_Close_err env = None →
  os_Remove_err env f = None →
  os_Open_err env2 f = None →
  ∃ st1 st2,
    Server_Upload env (upload_stream f size chunks) st =
      Some (Err (ErrWrap "failed to store metadata: " ErrFileAlreadyExists),
            st1) ∧
    store_view st1 = store_view st ∧
    disk st1 = delete f (disk st) ∧
    Server_Download env2 f st1 =
      Some ([], Some (ErrWrap "failed to open file: " ErrNotExist), st2).
Proof.
  intros Hwf Hbase [p Hp] Hcreate Hwrite Hclose Hremove Hopen.
  pose proof (Upload_loop_upload_stream env f size chunks st
                Hbase Hcreate Hwrite) as HL.
  pose proof (Upload_run_finish env _ st _ _ HL Hclose) as HU.
  simpl in HU. rewrite Hp in HU.
  unfold Server_Upload. rewrite HU. clear HU HL.
  unfold os_Remove. simpl. rewrite Hremove, lookup_insert_eq. simpl.
  rewrite delete_insert_eq.
  set (st1 := set_disk (delete f (disk st)) _).
  assert (Hv : store_view st1 = store_view st).
  { subst st1. apply (store_view_grow st [_] Hwf). }
  destruct (Hwf f p Hp) as (m & Hm & _).
  assert (HG : Get f st1 =
                 Some (Ok (length (heap st1)), set_heap (heap st1 ++ [m]) st1)).
  { apply (Get_present st1 f p m); [done|].
    subst st1. simpl. by apply lookup_app_l_Some. }
  eexists st1, _. split; [done|]. split; [done|]. split; [done|].
  unfold Server_Download. rewrite HG. simpl. unfold os_Open. rewrite Hopen.
  simpl. by rewrite lookup_delete_eq.
Qed.

(** X11: when closing the file fails at the end of an [Upload], the call
    returns the "failed to close file" error without removing the blob and
    without calling [Create]: for a client that sends one metadata message
    for a valid filename and then the chunks, when creating and writing do
    not fail, the state afterwards is the one from before with the blob of
    that name set to the bytes of the chunks, and the store itself is
    untouched. *)
Theorem Upload_close_failure_leaves_blob env st f size chunks err :
  filepath_Base f = f →
  os_Create_err env f = None →
  (∀ k, file_Write_err env k = None) →
  file_Close_err env = Some err →
  Server_Upload env (upload_stream f size chunks) st =
    Some (Err (ErrWrap "failed to close file: " err),
          set_disk (<[f := concat chunks]> (disk st)) st).
Proof.
  intros Hbase Hcreate Hwrite Hclose.
  unfold Server_Upload, Upload_run.
  rewrite (Upload_loop_upload_stream env f size chunks st
             Hbase Hcreate Hwrite).
  simpl. by rewrite Hclose.
Qed.


Lemma os_Remove_other env name st g :
  g ≠ name → disk (os_Remove env name st).2 !! g = disk st !! g.
Proof.
  intros Hne. unfold os_Remove. destruct (os_Remove_err env name); [done|].
  destruct (disk st !! name); [|done]. simpl. by apply lookup_delete_ne.
Qed.

(** The loop writes and removes under the current filename only. *)
Lemma Upload_loop_other env stream :
  ∀ vars nw st r st1,
    Upload_loop env stream vars nw st = (r, st1) →
    (∀ x, up_file vars = Some x → x = up_filename vars) →
    ∀ g, g ≠ up_filename vars → g ∉ named stream →
      disk st1 !! g = disk st !! g.
Proof.
  induction stream as [|[[filename size|chunk|]|err] stream IH];
    intros vars nw st r st1 H Hinv g Hg Hnamed; simpl in H, Hnamed.
  - by injection H as <- <-.
  - apply not_elem_of_cons in Hnamed as [Hne Hnamed].
    destruct (negb (String.eqb (filepath_Base filename) filename)).
    + by injection H as <- <-.
    + unfold os_Create in H. destruct (os_Create_err env filename).
      * by injection H as <- <-.
      * transitivity (disk (set_disk (<[filename := []]> (disk st)) st) !! g).
        -- eapply IH; [exact H| |done|done]. simpl. by intros x [= <-].
        -- simpl. by apply lookup_insert_ne.
  - destruct (up_file vars) as [file|] eqn:Hfile; [|by injection H as <- <-].
    pose proof (Hinv file eq_refl) as ->.
    unfold file_Write in H.
    destruct (file_Write_err env nw) as [[n e]|].
    + injection H as <- <-. rewrite os_Remove_other by done. simpl.
      by apply lookup_alter_ne.
    + transitivity
        (disk (set_disk (alter (λ old, old ++ chunk) (up_filename vars)
                           (disk st)) st) !! g).
      * eapply IH; [exact H| |done|done].
        intros x Hx. rewrite Hfile in Hx. by apply Hinv.
      * simpl. by apply lookup_alter_ne.
  - by apply (IH _ _ _ _ _ H).
  - injection H as <- <-. destruct (up_file vars); [|done].
    by apply os_Remove_other.
Qed.

(** The filename at the [break] is the one at the start or one that a
    metadata message carried. *)
Lemma Upload_loop_filename env stream :
  ∀ vars nw st vars1 st1,
    Upload_loop env stream vars nw st = (inl vars1, st1) →
    up_filename vars1 ∈ up_filename vars :: named stream.
Proof.
  induction stream as [|[[filename size|chunk|]|err] stream IH];
    intros vars nw st vars1 st1 H; simpl in H.
  - injection H as <- <-. apply list_elem_of_here.
  - destruct (negb (String.eqb (filepath_Base filename) filename)); [done|].
    destruct (os_Create env filename st) as [[file|e] st2]; [|done].
    apply IH in H. simpl in *. by apply list_elem_of_further.
  - destruct (up_file vars) as [file|]; [|done].
    destruct (file_Write env nw file chunk st) as [[e|] st2]; [done|].
    by apply IH in H.
  - by apply IH in H.
  - done.
Qed.

(** X12: an [Upload], however it ends, touches only what goes under the
    filenames that its metadata messages carry (and under the empty name,
    which is the filename before any metadata message): in a state that
    satisfies the invariant, the blob and the record of every other name
    are after the call what they were before. *)
Theorem Upload_touches_named_only env stream st r st1 g :
  wf st →
  Server_Upload env stream st = Some (r, st1) →
  g ∉ "" :: named stream →
  disk st1 !! g = disk st !! g ∧ store_view st1 !! g = store_view st !! g.
Proof.
  intros Hwf H Hg. apply not_elem_of_cons in Hg as [Hne Hnamed].
  unfold Server_Upload, Upload_run in H.
  destruct (Upload_loop env stream (mkUploadVars "" 0 None) 0 st)
    as [[vars|[[vars exit] err]] stL] eqn:HL;
    destruct (Upload_loop_frame _ _ _ _ _ _ _ HL) as [Hh Hf];
    pose proof (Upload_loop_other _ _ _ _ _ _ _ HL (λ x (E : None = Some x),
                  match E with end) g Hne Hnamed) as Hd;
    pose proof (store_view_same stL st Hh Hf) as Hv.
  2:{ injection H as <- <-. by rewrite Hd, Hv. }
  assert (Hname : g ≠ up_filename vars).
  { apply Upload_loop_filename in HL. simpl in HL.
    intros ->. apply elem_of_cons in HL as [HL|HL]; [by subst|done]. }
  assert (HwL : wf stL) by by eapply wf_same.
  destruct (match up_file vars with
            | Some _ => file_Close_err env
            | None => None
            end).
  { injection H as <- <-. by rewrite Hd, Hv. }
  pose proof (Create_of_new stL (up_filename vars) (up_fileSize vars)
                (time_Now env)) as E.
  simpl in E, H. rewrite E in H. clear E.
  destruct (files stL !! up_filename vars); simpl in H.
  - injection H as <- <-. rewrite os_Remove_other by done. simpl.
    split; [done|]. rewrite <-Hv.
    match goal with
    | |- context [os_Remove env ?n ?s] =>
        destruct (os_Remove_frame env n s) as [Hh' Hf']
    end.
    erewrite store_view_same; [|exact Hh'|exact Hf'].
    by rewrite (store_view_grow stL _ HwL).
  - assert (Hst : ∀ x : Result UploadResponse,
              Some (x, mkState
                         (heap stL ++
                            [mkFileMeta (up_filename vars) (up_fileSize vars)
                                        (time_Now env) (time_Now env);
                             mkFileMeta (up_filename vars) (up_fileSize vars)
                                        (time_Now env) (time_Now env)])
                         (<[up_filename vars := S (length (heap stL))]>
                            (files stL))
                         (disk stL)) = Some (r, st1) →
              disk st1 !! g = disk st !! g ∧
              store_view st1 !! g = store_view st !! g).
    { intros x [= <- <-]. simpl. split; [done|].
      rewrite (store_view_filed stL _ _ HwL), lookup_insert_ne by done.
      by rewrite Hv. }
    destruct (stream_SendAndClose_err env); by eapply Hst.
Qed.


(** ** [Stat], [List] and [Delete] of the server *)

Lemma Server_Stat_eq st f :
  wf st →
  Server_Stat f st =
    Some (match store_view st !! f with
          | Some m => (Ok (mkStatResponse true (Some (toFileInfo m))),
                       set_heap (heap st ++ [m]) st)
          | None => (Ok (mkStatResponse false None), st)
          end).
Proof.
  intros Hwf. unfold Server_Stat. rewrite store_view_lookup.
  destruct (files st !! f) as [p|] eqn:Hf.
  - destruct (Hwf f p Hf) as (m & Hm & _). simpl.
    rewrite (Get_present st f p m Hf Hm). simpl. rewrite Hm.
    rewrite lookup_app_r by lia. by rewrite Nat.sub_diag.
  - by rewrite (Get_absent st f Hf).
Qed.

(** X13: [Stat] never returns an error.  In a state that satisfies the
    invariant it answers whether the store has a record of the filename,
    and if so with the filename and size of that record and its two times
    in Unix seconds; the records and the blobs are after the call what
    they were before. *)
Theorem Stat_answers_from_store st f :
  wf st →
  ∃ st1,
    Server_Stat f st =
      Some (Ok (mkStatResponse (bool_decide (is_Some (store_view st !! f)))
                               (toFileInfo <$> store_view st !! f)), st1) ∧
    store_view st1 = store_view st ∧
    disk st1 = disk st.
Proof.
  intros Hwf. rewrite Server_Stat_eq by done.
  destruct (store_view st !! f) as [m|]; eexists; (split; [done|]).
  - split; [by apply store_view_grow|done].
  - done.
Qed.

Lemma mapM_lookup_seq_fmap {B} (g : FileMeta → B) (h ms : list FileMeta) :
  mapM (λ p, g <$> (h ++ ms) !! p) (seq (length h) (length ms))
  = Some (g <$> ms).
Proof.
  apply mapM_Some. revert h. induction ms as [|m ms IH]; intros h; simpl.
  - constructor.
  - constructor.
    + rewrite lookup_app_r by lia. by rewrite Nat.sub_diag.
    + specialize (IH (h ++ [m])). rewrite length_app in IH. simpl in IH.
      rewrite <-app_assoc in IH. simpl in IH.
      by replace (S (length h)) with (length h + 1) by lia.
Qed.

Lemma Server_List_eq st prefix :
  wf st →
  Server_List prefix st =
    Some (Ok (toFileInfo <$> listed prefix (heap st) (map_to_list (files st))),
          set_heap (heap st
                      ++ listed prefix (heap st) (map_to_list (files st))) st).
Proof.
  intros Hwf. unfold Server_List. rewrite List_eq by done. simpl.
  by rewrite mapM_lookup_seq_fmap.
Qed.

(** X14: [List] of the server never returns an error.  In a state that
    satisfies the invariant it returns one entry for each record whose
    filename starts with the prefix and no other entry, each carrying the
    filename, the size and the two times in Unix seconds of its record; no
    two entries have the same filename; the records and the blobs are
    after the call what they were before. *)
Theorem Server_List_answers_from_store st prefix :
  wf st →
  ∃ infos st1,
    Server_List prefix st = Some (Ok infos, st1) ∧
    (∀ i, i ∈ infos ↔
       ∃ f m, store_view st !! f = Some m ∧ starts_with prefix f ∧
              i = toFileInfo m) ∧
    NoDup (fi_Filename <$> infos) ∧
    store_view st1 = store_view st ∧
    disk st1 = disk st.
Proof.
  intros Hwf. eexists _, _. split; [by apply Server_List_eq|].
  split; [|split; [|split; [by apply store_view_grow|done]]].
  - intros i. rewrite list_elem_of_fmap. split.
    + intros (m & -> & Hm). apply elem_of_listed_view in Hm as (f & Hv & Hp).
      by exists f, m.
    + intros (f & m & Hv & Hp & ->). exists m. split; [done|].
      apply elem_of_listed_view. by exists f.
  - rewrite <-list_fmap_compose.
    replace (fi_Filename ∘ toFileInfo) with Filename by done.
    rewrite listed_Filename.
    + eapply sublist_NoDup; [apply (NoDup_fst_map_to_list (files st))|].
      apply fmap_sublist, sublist_filter.
    + intros f p Hin. by apply (wf_entries st (f, p)).
Qed.

Lemma Server_Delete_present_eq env st f :
  is_Some (files st !! f) →
  os_Remove_err env f = None →
  Server_Delete env f st =
    (Ok (mkDeleteResponse true ("File '" +:+ f +:+ "' deleted successfully")),
     mkState (heap st) (delete f (files st)) (delete f (disk st))).
Proof.
  intros [p Hp] Hrm. unfold Server_Delete, Exists. rewrite Hp.
  rewrite bool_decide_eq_true_2 by by eexists. simpl.
  unfold os_Remove. rewrite Hrm.
  destruct (disk st !! f) as [b|] eqn:Hb; simpl.
  - unfold Delete. simpl. by rewrite Hp.
  - unfold Delete. rewrite Hp. unfold set_files. simpl.
    by rewrite (delete_id (disk st) f Hb).
Qed.

(** X15: [Delete] of the server, for a filename that is in the store.  When
    removing the blob does not fail, the call succeeds and leaves the state
    from before without the blob and without the record of that filename,
    also when there was no blob to remove; when removing the blob fails
    with an error other than "does not exist", the call returns the "failed
    to delete file data" error and the record, like the whole state, stays. *)
Theorem Server_Delete_removes_blob_then_record env st f :
  is_Some (files st !! f) →
  (os_Remove_err env f = None →
   Server_Delete env f st =
     (Ok (mkDeleteResponse true
            ("File '" +:+ f +:+ "' deleted successfully")),
      mkState (heap st) (delete f (files st)) (delete f (disk st)))) ∧
  (∀ e, os_Remove_err env f = Some e → os_IsNotExist e = false →
   Server_Delete env f st =
     (Err (ErrWrap "failed to delete file data: " e), st)).
Proof.
  intros Hf. split; [by apply Server_Delete_present_eq|].
  intros e He Hne. destruct Hf as [p Hp]. unfold Server_Delete, Exists.
  rewrite Hp. rewrite bool_decide_eq_true_2 by by eexists. simpl.
  unfold os_Remove. rewrite He. by rewrite Hne.
Qed.

(** X16: an [Upload] and then a [Delete] of the same filename undo each
    other.  For a valid filename that is not in the store, when nothing
    fails on the way, after the two calls the store has the records from
    before the upload and the blobs are those from before without a blob
    of that name. *)
Theorem Upload_then_Delete env env2 st f size chunks :
  wf st →
  filepath_Base f = f →
  files st !! f = None →
  os_Create_err env f = None →
  (∀ k, file_Write_err env k = None) →
  file_Close_err env = None →
  stream_SendAndClose_err env = None →
  os_Remove_err env2 f = None →
  ∃ resp st1 dresp st2,
    Server_Upload env (upload_stream f size chunks) st = Some (Ok resp, st1) ∧
    Server_Delete env2 f st1 = (Ok dresp, st2) ∧
    del_Success dresp = true ∧
    store_view st2 = store_view st ∧
    disk st2 = delete f (disk st).
Proof.
  intros Hwf Hbase Hfree Hcreate Hwrite Hclose Hsac Hremove.
  pose proof (Upload_loop_upload_stream env f size chunks st
                Hbase Hcreate Hwrite) as HL.
  pose proof (Upload_run_finish env _ st _ _ HL Hclose) as HU.
  simpl in HU. rewrite Hfree, Hsac in HU.
  unfold Server_Upload. rewrite HU. clear HU HL.
  eexists _, _, _, _. split; [done|].
  split.
  { apply Server_Delete_present_eq; [|done]. simpl. rewrite lookup_insert_eq.
    by eexists. }
  simpl. split; [done|]. split.
  - rewrite delete_insert_id by done.
    apply (store_view_grow
             (mkState (heap st) (files st)
                      (delete f (<[f := concat chunks]> (disk st)))) [_; _]).
    exact Hwf.
  - apply delete_insert_eq.
Qed.


(** ** [Download]: what it sends and what it leaves *)



(** X17: a [Download] changes neither the store nor the blobs, however it
    ends: the [files] map and the blobs are after the call what they were
    before, and so are, in a state that satisfies the invariant, the
    records of the store. *)
Theorem Download_changes_nothing env f st sent r st1 :
  Server_Download env f st = Some (sent, r, st1) →
  files st1 = files st ∧ disk st1 = disk st ∧
  (wf st → store_view st1 = store_view st).
Proof.
  intros H. unfold Server_Download in H.
  assert (HG : ∀ g stG, Get f st = Some (g, stG) →
            files stG = files st ∧ disk stG = disk st ∧
            (wf st → store_view stG = store_view st)).
  { intros g stG E. unfold Get in E. destruct (files st !! f) as [p|].
    - destruct (heap st !! p) as [m|]; [|done]. simpl in E.
      injection E as <- <-. split; [done|]. split; [done|].
      intros Hwf. by apply store_view_grow.
    - by injection E as <- <-. }
  destruct (Get f st) as [[g stG]|]; [|done].
  specialize (HG g stG eq_refl). cbn [mbind option_bind] in H.
  destruct g as [meta|err].
  - destruct (os_Open env f stG); [|by injection H as <- <- <-].
    destruct (heap stG !! meta); [|done]. cbn [mbind option_bind] in H.
    destruct (stream_Send_err env 0); [by injection H as <- <- <-|].
    destruct (Download_loop env defaultChunkSize (S (length a)) a 0 1 _)
      as [[out res]|]; [|done].
    by injection H as <- <- <-.
  - by destruct (errors_Is err ErrFileNotFound); injection H as <- <- <-.
Qed.



(** ** The command line client *)

Lemma chunkSize_pos : 0 < chunkSize.
Proof. unfold chunkSize. lia. Qed.

Arguments chunkSize : simpl never.

Lemma handleUpload_loop_step cenv fuel rest k sent :
  handleUpload_loop cenv (S fuel) rest k sent =
  match rest with
  | [] => Some (sent, None)
  | _ :: _ =>
      match c_Read_err cenv k with
      | Some err => Some (sent, Some (ErrWrap "failed to read file: " err))
      | None =>
          match c_Send_err cenv (S k) with
          | Some err =>
              Some (sent, Some (ErrWrap "failed to send chunk: " err))
          | None =>
              handleUpload_loop cenv fuel
                (drop (Nat.min chunkSize (length rest)) rest) (S k)
                (sent ++ [UploadRequest_Chunk
                            (take (Nat.min chunkSize (length rest)) rest)])
          end
      end
  end.
Proof. reflexivity. Qed.

Arguments handleUpload_loop : simpl never.

(** One iteration for each byte and one for the end of the file are enough
    fuel for the loop of [handleUpload], whatever fails. *)
Lemma handleUpload_loop_fuel cenv :
  ∀ fuel rest k sent,
    length rest < fuel →
    is_Some (handleUpload_loop cenv fuel rest k sent).
Proof.
  pose proof chunkSize_pos as Hsize.
  induction fuel as [|fuel IH]; intros rest k sent Hlen; [lia|].
  rewrite handleUpload_loop_step. destruct rest as [|b rest]; [by eexists|].
  destruct (c_Read_err cenv k); [by eexists|].
  destruct (c_Send_err cenv (S k)); [by eexists|].
  apply IH. rewrite length_drop. simpl length in *. lia.
Qed.

(** [handleUpload] always returns. *)
Lemma handleUpload_total cenv args local :
  is_Some (handleUpload cenv args local).
Proof.
  unfold handleUpload. destruct args as [|localPath more]; [by eexists|].
  destruct (match c_Open_err cenv localPath with
            | Some err => Err err
            | None => match local !! localPath with
                      | Some content => Ok content
                      | None => Err ErrNotExist
                      end
            end) as [content|err]; [|by eexists].
  destruct (c_Stat_err cenv); [by eexists|].
  destruct (c_Upload_err cenv); [by eexists|].
  destruct (c_Send_err cenv 0); [by eexists|].
  destruct (handleUpload_loop_fuel cenv (S (length content)) content 0
              [UploadRequest_Metadata (filepath_Base localPath)
                 (Z.of_nat (length content))]) as [[sent res] ->]; [lia|].
  simpl. destruct res; [by eexists|].
  destruct (c_CloseAndRecv cenv sent) as [resp|err]; [|by eexists].
  destruct (Success resp); by eexists.
Qed.

(** Without failures the loop of [handleUpload] sends the file in chunks
    that are not empty and of at most [chunkSize] bytes. *)
Lemma handleUpload_loop_chunks cenv :
  (∀ k, c_Read_err cenv k = None) →
  (∀ k, c_Send_err cenv k = None) →
  ∀ fuel rest k sent,
    length rest < fuel →
    ∃ cs,
      handleUpload_loop cenv fuel rest k sent =
        Some (sent ++ (UploadRequest_Chunk <$> cs), None) ∧
      concat cs = rest ∧
      Forall (λ c, c ≠ [] ∧ length c ≤ chunkSize) cs.
Proof.
  intros Hread Hsend. pose proof chunkSize_pos as Hsize.
  induction fuel as [|fuel IH]; intros rest k sent Hlen; [lia|].
  rewrite handleUpload_loop_step. destruct rest as [|b rest].
  { exists []. split; [by rewrite app_nil_r|]. split; [done|constructor]. }
  rewrite Hread, Hsend.
  set (l := b :: rest) in *. set (n := Nat.min chunkSize (length l)).
  assert (Hl : 0 < length l) by (subst l; simpl; lia).
  clearbody l.
  destruct (IH (drop n l) (S k) (sent ++ [UploadRequest_Chunk (take n l)]))
    as (cs & E & Hcat & Hall).
  { rewrite length_drop. lia. }
  exists (take n l :: cs). split; [|split].
  - rewrite E. simpl. by rewrite <-app_assoc.
  - simpl. rewrite Hcat. apply take_drop.
  - constructor; [|done]. split.
    + intros Hnil. apply (f_equal length) in Hnil.
      rewrite length_take in Hnil. simpl in Hnil. lia.
    + rewrite length_take. lia.
Qed.

(** What [handleUpload] sends when nothing fails on its side, up to the
    call of [CloseAndRecv]. *)
Lemma handleUpload_sends cenv localPath more content local :
  local !! localPath = Some content →
  c_Open_err cenv localPath = None →
  c_Stat_err cenv = None →
  c_Upload_err cenv = None →
  (∀ k, c_Read_err cenv k = None) →
  (∀ k, c_Send_err cenv k = None) →
  ∃ cs,
    concat cs = content ∧
    Forall (λ c, c ≠ [] ∧ length c ≤ chunkSize) cs ∧
    let sent := UploadRequest_Metadata (filepath_Base localPath)
                  (Z.of_nat (length content))
                :: (UploadRequest_Chunk <$> cs) in
    handleUpload cenv (localPath :: more) local =
      Some (sent,
            match c_CloseAndRecv cenv sent with
            | Err err => Some (ErrWrap "upload failed: " err)
            | Ok resp =>
                if Success resp then None
                else Some (ErrText ("server error: " +:+ Message resp))
            end).
Proof.
  intros Hlocal Hopen Hstat Hup Hread Hsend.
  destruct (handleUpload_loop_chunks cenv Hread Hsend
              (S (length content)) content 0
              [UploadRequest_Metadata (filepath_Base localPath)
                 (Z.of_nat (length content))])
    as (cs & E & Hcat & Hall); [lia|].
  exists cs. split; [done|]. split; [done|].
  unfold handleUpload. rewrite Hopen, Hlocal, Hstat, Hup, Hsend, E.
  simpl.
  destruct (c_CloseAndRecv cenv _) as [resp|err]; [|done].
  by destruct (Success resp).
Qed.



Lemma local_Remove_other cenv path (local : gmap string (list byte)) p :
  p ≠ path → local_Remove cenv path local !! p = local !! p.
Proof.
  intros Hne. unfold local_Remove. destruct (c_Remove_err cenv path); [done|].
  by apply lookup_delete_ne.
Qed.

Lemma local_Remove_gone cenv path (local : gmap string (list byte)) :
  c_Remove_err cenv path = None → local_Remove cenv path local !! path = None.
Proof. intros H. unfold local_Remove. rewrite H. apply lookup_delete_eq. Qed.

(** The loop of [handleDownload]: it touches the local file only; when it
    returns an error the local file is removed, and when it returns none
    the stream has ended with [io.EOF] and the chunks have been appended to
    the local file in order. *)
Lemma handleDownload_loop_spec cenv localPath msgs ending :
  ∀ k (local : gmap string (list byte)),
    (∀ p, p ≠ localPath →
       (handleDownload_loop cenv localPath msgs ending k local).1 !! p
       = local !! p) ∧
    (c_Remove_err cenv localPath = None →
     is_Some (handleDownload_loop cenv localPath msgs ending k local).2 →
     (handleDownload_loop cenv localPath msgs ending k local).1 !! localPath
     = None) ∧
    ((handleDownload_loop cenv localPath msgs ending k local).2 = None →
     ending = None ∧
     (handleDownload_loop cenv localPath msgs ending k local).1
     = alter (λ old, old ++ received_chunks msgs) localPath local) ∧
    (ending = None → (∀ j, c_Write_err cenv j = None) →
     (handleDownload_loop cenv localPath msgs ending k local).2 = None).
Proof.
  induction msgs as [|[fn size|chunk] msgs IH]; intros k local.
  - simpl. destruct ending as [e|]; simpl.
    + split; [intros; by apply local_Remove_other|].
      split; [intros; by apply local_Remove_gone|]. split; done.
    + split; [done|]. split; [by intros _ [? ?]|].
      split; [|done]. intros _. split; [done|].
      symmetry. apply alter_app_nil.
  - simpl. apply IH.
  - simpl. destruct (c_Write_err cenv k) as [[n e]|] eqn:Hw; simpl.
    + split.
      { intros p Hp. rewrite local_Remove_other by done.
        by apply lookup_alter_ne. }
      split; [intros; by apply local_Remove_gone|].
      split; [done|]. intros _ Hall. by rewrite Hall in Hw.
    + destruct (IH (S k) (alter (λ old, old ++ chunk) localPath local))
        as (Hother & Hgone & Hdone & Hok).
      split.
      { intros p Hp. rewrite Hother by done. by apply lookup_alter_ne. }
      split; [done|]. split; [|done].
      intros Hr. destruct (Hdone Hr) as [-> ->]. split; [done|].
      apply alter_app_app.
Qed.

(** X20: what [handleDownload] does to the client's files once the
    metadata message has arrived and the local file has been created.  It
    touches no other path; when it returns an error (the stream broke, or a
    write failed) it has removed the local file, so that, where the removal
    does not fail, no file is left at the local path, even if there was one
    before the download; when it returns no error the stream has ended
    with [io.EOF] and the local file holds the bytes of the chunks in the
    order of arrival; and it returns no error when the stream ends with
    [io.EOF] and no write fails. *)
Theorem client_download_local_file cenv remoteFile more fn size rest ending
    local localPath local1 res :
  localPath = match more with [] => remoteFile | p :: _ => p end →
  c_Download_err cenv = None →
  c_Create_err cenv localPath = None →
  handleDownload_run cenv (remoteFile :: more)
    (DownloadResponse_Metadata fn size :: rest) ending local = (local1, res) →
  (∀ p, p ≠ localPath → local1 !! p = local !! p) ∧
  (c_Remove_err cenv localPath = None → is_Some res →
   local1 !! localPath = None) ∧
  (res = None →
   ending = None ∧ local1 = <[localPath := received_chunks rest]> local) ∧
  (ending = None → (∀ j, c_Write_err cenv j = None) → res = None).
Proof.
  intros -> Hdl Hcreate H. unfold handleDownload_run in H.
  rewrite Hdl, Hcreate in H.
  set (localPath := match more with [] => remoteFile | p :: _ => p end) in *.
  destruct (handleDownload_loop_spec cenv localPath rest ending 0
              (<[localPath := []]> local))
    as (Hother & Hgone & Hdone & Hok).
  rewrite H in Hother, Hgone, Hdone, Hok. simpl in *.
  split; [|split; [done|split; [|done]]].
  - intros p Hp. rewrite Hother by done. by apply lookup_insert_ne.
  - intros Hr. destruct (Hdone Hr) as [-> ->]. split; [done|].
    apply alter_insert_nil.
Qed.

(** X21: a download of a filename that is not in the store changes nothing
    on either side: the server returns the "file not found" error with no
    message sent and its state as it was, and the client, to which no
    message arrives, returns an error without creating or changing any
    local file, whatever error the stream ends with. *)
Theorem download_of_absent_file_changes_nothing senv cenv st f more local
    ending :
  files st !! f = None →
  Server_Download senv f st =
    Some ([], Some (ErrText ("file not found: " +:+ f)), st) ∧
  ∃ err, handleDownload_run cenv (f :: more) [] ending local
         = (local, Some err).
Proof.
  intros Hf. split.
  - unfold Server_Download. by rewrite (Get_absent _ _ Hf).
  - unfold handleDownload_run. destruct (c_Download_err cenv); by eexists.
Qed.

(** A download of a file that has a record and a blob, when nothing
    fails. *)
Lemma Server_Download_reliable env st f m content :
  wf st →
  store_view st !! f = Some m →
  disk st !! f = Some content →
  os_Open_err env f = None →
  (∀ k, file_Read_err env k = None) →
  (∀ k, stream_Send_err env k = None) →
  ∃ cs st1,
    Server_Download env f st =
      Some (DownloadResponse_Metadata f (Size m)
              :: (DownloadResponse_Chunk <$> cs), None, st1) ∧
    concat cs = content.
Proof.
  intros Hwf Hv Hc Hopen Hread Hsend. rewrite store_view_lookup in Hv.
  destruct (files st !! f) as [p|] eqn:Hp; [|done]. simpl in Hv.
  destruct (Hwf f p Hp) as (m' & Hm & Hname).
  rewrite Hm in Hv. injection Hv as ->.
  destruct (Download_loop_chunks env defaultChunkSize defaultChunkSize_pos
              Hread Hsend (S (length content)) content 0 1
              [DownloadResponse_Metadata f (Size m)])
    as (cs & HD & Hcat & _); [lia|].
  exists cs. eexists. split; [|done].
  unfold Server_Download. rewrite (Get_present st f p m Hp Hm).
  cbn [mbind option_bind]. unfold os_Open. rewrite Hopen.
  change (disk (set_heap (heap st ++ [m]) st)) with (disk st).
  rewrite Hc.
  change (heap (set_heap (heap st ++ [m]) st)) with (heap st ++ [m]).
  rewrite lookup_app_r by lia. rewrite Nat.sub_diag.
  cbn [lookup list_lookup mbind option_bind].
  rewrite Hsend, Hname, HD. reflexivity.
Qed.

(** X22: a file uploaded with the client and then downloaded with the
    client arrives as it was.  When nothing fails on the way and the base
    name of the local path is not in the store, the upload returns without
    an error, and the download of that name into any local path then
    returns without an error and leaves at that path exactly the bytes of
    the file that was uploaded, with the other files of the downloading
    client as they were. *)
Theorem client_upload_then_download cenv senv cenv2 senv2 localPath more
    content local st target local2 :
  local !! localPath = Some content →
  c_Open_err cenv localPath = None →
  c_Stat_err cenv = None →
  c_Upload_err cenv = None →
  (∀ k, c_Read_err cenv k = None) →
  (∀ k, c_Send_err cenv k = None) →
  (∀ msgs resp st1,
     Server_Upload senv (RecvMsg <$> msgs) st = Some (Ok resp, st1) →
     c_CloseAndRecv cenv msgs = Ok resp) →
  wf st →
  files st !! filepath_Base localPath = None →
  os_Create_err senv (filepath_Base localPath) = None →
  (∀ k, file_Write_err senv k = None) →
  file_Close_err senv = None →
  stream_SendAndClose_err senv = None →
  os_Open_err senv2 (filepath_Base localPath) = None →
  (∀ k, file_Read_err senv2 k = None) →
  (∀ k, stream_Send_err senv2 k = None) →
  c_Download_err cenv2 = None →
  c_Create_err cenv2 target = None →
  (∀ k, c_Write_err cenv2 k = None) →
  ∃ sent resp st1 msgs st2,
    handleUpload cenv (localPath :: more) local = Some (sent, None) ∧
    Server_Upload senv (RecvMsg <$> sent) st = Some (Ok resp, st1) ∧
    Server_Download senv2 (filepath_Base localPath) st1
      = Some (msgs, None, st2) ∧
    handleDownload_run cenv2 [filepath_Base localPath; target] msgs None local2
      = (<[target := content]> local2, None).
Proof.
  intros Hlocal Hopen Hstat Hup Hread Hsend Hrpc Hwf Hfree Hcreate Hwrite
    Hclose Hsac Hopen2 Hread2 Hsend2 Hdl Hcreate2 Hwrite2.
  destruct (handleUpload_sends cenv localPath more content local
              Hlocal Hopen Hstat Hup Hread Hsend)
    as (cs & Hcat & _ & HU).
  simpl in HU.
  set (f := filepath_Base localPath) in *.
  set (sent := UploadRequest_Metadata f (Z.of_nat (length content))
               :: (UploadRequest_Chunk <$> cs)) in *.
  assert (Hstream : RecvMsg <$> sent
                    = upload_stream f (Z.of_nat (length content)) cs).
  { unfold sent, upload_stream. rewrite fmap_cons. f_equal.
    by rewrite <-list_fmap_compose. }
  assert (Hvalid : filepath_Base f = f).
  { apply filepath_Base_fixed, filepath_Base_shape. }
  destruct (Upload_upload_stream_commits senv st f
              (Z.of_nat (length content)) cs
              Hwf Hvalid Hfree Hcreate Hwrite Hclose)
    as (st1 & HS & Hview & Hdisk).
  rewrite Hsac in HS. rewrite <-Hstream in HS.
  rewrite (Hrpc _ _ _ HS) in HU. simpl in HU.
  pose proof (wf_Server_Upload _ _ _ _ _ Hwf HS) as Hwf1.
  destruct (Server_Download_reliable senv2 st1 f
              (mkFileMeta f (Z.of_nat (length content))
                          (time_Now senv) (time_Now senv)) content Hwf1)
    as (cs2 & st2 & HD & Hcat2); [| |done|done|done|].
  { by rewrite Hview, lookup_insert_eq. }
  { by rewrite Hdisk, Hcat, lookup_insert_eq. }
  eexists sent, _, st1, _, st2. split; [exact HU|]. split; [exact HS|].
  split; [exact HD|]. unfold handleDownload_run. rewrite Hdl, Hcreate2.
  destruct (handleDownload_loop_spec cenv2 target
              (DownloadResponse_Chunk <$> cs2) None 0
              (<[target := []]> local2))
    as (_ & _ & Hdone & Hok).
  destruct (handleDownload_loop cenv2 target (DownloadResponse_Chunk <$> cs2)
              None 0 (<[target := []]> local2)) as [local3 res].
  simpl in Hdone, Hok. rewrite (Hok eq_refl Hwrite2) in *.
  destruct (Hdone eq_refl) as [_ ->].
  by rewrite alter_insert_nil, received_chunks_fmap, Hcat2.
Qed.

(** ** [repeat] *)

Lemma String_length_app (s1 s2 : string) :
  String.length (s1 +:+ s2) = String.length s1 + String.length s2.
Proof. induction s1 as [|c s1 IH]; simpl; [done|]. by rewrite IH. Qed.

Lemma repeat_loop_length count char result :
  String.length (repeat_loop count char result)
  = String.length result + count * String.length char.
Proof.
  revert result. induction count as [|count IH]; intros result; simpl.
  - lia.
  - rewrite IH, String_length_app. lia.
Qed.

(** X23: [repeat char n] has [n] times the length of [char], and is the
    empty string when [n] is zero or negative; with a [char] of one
    character it is a line of [n] characters, as for the rule of 77 dashes
    that [handleList] prints. *)
Theorem repeat_length char n :
  String.length (repeat char n) = Z.to_nat n * String.length char ∧
  ((n ≤ 0)%Z → repeat char n = "").
Proof.
  unfold repeat. split.
  - by rewrite repeat_loop_length.
  - intros Hn. by replace (Z.to_nat n) with 0 by lia.
Qed.


(** ** The further properties at the sample data *)

Lemma wf_caller_state : wf caller_state.
Proof. intros f p H. simpl in H. by rewrite lookup_empty in H. Qed.

Lemma Delete_removes_record_witness :
  is_Some (files uploaded_state !! "a.txt") ∧
  ∃ st1,
    Delete "a.txt" uploaded_state = (None, st1) ∧
    store_view st1 = delete "a.txt" (store_view uploaded_state) ∧
    Exists "a.txt" st1 = false ∧
    Get "a.txt" st1 = Some (Err ErrFileNotFound, st1) ∧
    heap st1 = heap uploaded_state ∧ disk st1 = disk uploaded_state.
Proof.
  assert (H : is_Some (files uploaded_state !! "a.txt"))
    by (exists 1; reflexivity).
  split; [exact H|].
  exact (proj1 (Delete_removes_record uploaded_state "a.txt") H).
Defined.

Lemma Exists_agrees_with_Get_witness :
  wf uploaded_state ∧
  (Exists "a.txt" uploaded_state = true ↔
   ∃ p st1, Get "a.txt" uploaded_state = Some (Ok p, st1)) ∧
  (Exists "b.txt" uploaded_state = false ↔
   Get "b.txt" uploaded_state = Some (Err ErrFileNotFound, uploaded_state)).
Proof.
  split; [exact wf_uploaded_state|]. split.
  - exact (proj1 (Exists_agrees_with_Get uploaded_state "a.txt"
                    wf_uploaded_state)).
  - exact (proj2 (Exists_agrees_with_Get uploaded_state "b.txt"
                    wf_uploaded_state)).
Defined.

Lemma Create_Update_leave_other_records_witness :
  wf caller_state ∧
  Create 0 t100 caller_state = Some (None, filed_state) ∧
  ∃ m, heap caller_state !! 0 = Some m ∧
    (∀ g, g ≠ Filename m →
       store_view filed_state !! g = store_view caller_state !! g) ∧
    disk filed_state = disk caller_state.
Proof.
  assert (H : Create 0 t100 caller_state = Some (None, filed_state))
    by (vm_compute; reflexivity).
  split; [exact wf_caller_state|]. split; [exact H|].
  exact (Create_Update_leave_other_records caller_state 0 t100 filed_state
           wf_caller_state (or_introl H)).
Defined.

Lemma Create_then_Delete_witness :
  wf caller_state ∧
  heap caller_state !! 0 = Some sample_meta ∧
  Create 0 t100 caller_state = Some (None, filed_state) ∧
  ∃ st2,
    Delete "a.txt" filed_state = (None, st2) ∧
    store_view st2 = store_view caller_state.
Proof.
  assert (H : Create 0 t100 caller_state = Some (None, filed_state))
    by (vm_compute; reflexivity).
  split; [exact wf_caller_state|]. split; [reflexivity|]. split; [exact H|].
  exact (Create_then_Delete caller_state 0 sample_meta t100 filed_state
           wf_caller_state eq_refl H).
Defined.

Lemma Upload_refuses_separators_witness :
  (has_separator "../b.txt" ∧ "../b.txt" ≠ "/") ∧
  Server_Upload (reliable t100)
    [RecvMsg (UploadRequest_Metadata "../b.txt" 3);
     RecvMsg (UploadRequest_Chunk ["001"; "002"; "003"]%byte)] uploaded_state
  = Some (Err (ErrText "invalid filename: must not contain path separators"),
          uploaded_state).
Proof.
  assert (H : has_separator "../b.txt" ∧ "../b.txt" ≠ "/").
  { split; [|discriminate]. unfold has_separator. simpl.
    do 2 apply list_elem_of_further. apply list_elem_of_here. }
  split; [exact H|].
  exact (Upload_refuses_separators (reliable t100) "../b.txt" 3 _
           uploaded_state (or_intror H)).
Defined.

Lemma Upload_commits_witness :
  wf NewInMemoryMetadataStore ∧
  filepath_Base "a.txt" = "a.txt" ∧
  files NewInMemoryMetadataStore !! "a.txt" = None ∧
  ∃ st1,
    Server_Upload (reliable t100) short_upload NewInMemoryMetadataStore =
      Some (Ok (mkUploadResponse true "File 'a.txt' uploaded successfully"
                                 "a.txt"), st1) ∧
    store_view st1 =
      <[ "a.txt" := mkFileMeta "a.txt" 5 t100 t100 ]>
        (store_view NewInMemoryMetadataStore) ∧
    disk st1 =
      <[ "a.txt" := ["001"; "002"; "003"]%byte ]>
        (disk NewInMemoryMetadataStore).
Proof.
  assert (Hb : filepath_Base "a.txt" = "a.txt") by (vm_compute; reflexivity).
  split; [exact wf_new|]. split; [exact Hb|]. split; [reflexivity|].
  exact (Upload_commits (reliable t100) NewInMemoryMetadataStore "a.txt" 5
           [["001"; "002"; "003"]%byte] wf_new Hb eq_refl eq_refl
           (λ _, eq_refl) eq_refl).
Defined.

Lemma Upload_again_destroys_blob_witness :
  wf uploaded_state ∧
  filepath_Base "a.txt" = "a.txt" ∧
  is_Some (files uploaded_state !! "a.txt") ∧
  ∃ st1 st2,
    Server_Upload (reliable t200) second_upload uploaded_state =
      Some (Err (ErrWrap "failed to store metadata: " ErrFileAlreadyExists),
            st1) ∧
    store_view st1 = store_view uploaded_state ∧
    disk st1 = delete "a.txt" (disk uploaded_state) ∧
    Server_Download (reliable t200) "a.txt" st1 =
      Some ([], Some (ErrWrap "failed to open file: " ErrNotExist), st2).
Proof.
  assert (Hb : filepath_Base "a.txt" = "a.txt") by (vm_compute; reflexivity).
  assert (H : is_Some (files uploaded_state !! "a.txt"))
    by (exists 1; reflexivity).
  split; [exact wf_uploaded_state|]. split; [exact Hb|]. split; [exact H|].
  exact (Upload_again_destroys_blob (reliable t200) (reliable t200)
           uploaded_state "a.txt" 1 [["009"%byte]] wf_uploaded_state Hb H
           eq_refl (λ _, eq_refl) eq_refl eq_refl eq_refl).
Defined.

Lemma Upload_close_failure_leaves_blob_witness :
  filepath_Base "a.txt" = "a.txt" ∧
  file_Close_err close_fails = Some (ErrExternal "close") ∧
  Server_Upload close_fails short_upload NewInMemoryMetadataStore =
    Some (Err (ErrWrap "failed to close file: " (ErrExternal "close")),
          set_disk (<[ "a.txt" := ["001"; "002"; "003"]%byte ]>
                      (disk NewInMemoryMetadataStore))
                   NewInMemoryMetadataStore).
Proof.
  assert (Hb : filepath_Base "a.txt" = "a.txt") by (vm_compute; reflexivity).
  split; [exact Hb|]. split; [reflexivity|].
  exact (Upload_close_failure_leaves_blob close_fails
           NewInMemoryMetadataStore "a.txt" 5 [["001"; "002"; "003"]%byte]
           (ErrExternal "close") Hb eq_refl (λ _, eq_refl) eq_refl).
Defined.

Lemma Upload_touches_named_only_witness :
  wf uploaded_state ∧
  ("b.txt" ∉ "" :: named second_upload) ∧
  ∃ r st1,
    Server_Upload (reliable t200) second_upload uploaded_state
      = Some (r, st1) ∧
    disk st1 !! "b.txt" = disk uploaded_state !! "b.txt" ∧
    store_view st1 !! "b.txt" = store_view uploaded_state !! "b.txt".
Proof.
  assert (Hn : "b.txt" ∉ ("" :: named second_upload)).
  { simpl. intros [H|[H|H%elem_of_nil]%elem_of_cons]%elem_of_cons;
      [discriminate H|discriminate H|done]. }
  split; [exact wf_uploaded_state|]. split; [exact Hn|].
  eexists _, _.
  match goal with
  | |- ?E ∧ _ => assert (H : E) by (vm_compute; reflexivity)
  end.
  split; [exact H|].
  exact (Upload_touches_named_only (reliable t200) second_upload
           uploaded_state _ _ "b.txt" wf_uploaded_state H Hn).
Defined.

Lemma Stat_answers_from_store_witness :
  wf uploaded_state ∧
  ∃ st1,
    Server_Stat "a.txt" uploaded_state =
      Some (Ok (mkStatResponse
                  (bool_decide (is_Some (store_view uploaded_state !! "a.txt")))
                  (toFileInfo <$> store_view uploaded_state !! "a.txt")),
            st1) ∧
    store_view st1 = store_view uploaded_state ∧
    disk st1 = disk uploaded_state.
Proof.
  split; [exact wf_uploaded_state|].
  exact (Stat_answers_from_store uploaded_state "a.txt" wf_uploaded_state).
Defined.

Lemma Server_List_answers_from_store_witness :
  wf uploaded_state ∧
  ∃ infos st1,
    Server_List "a" uploaded_state = Some (Ok infos, st1) ∧
    (∀ i, i ∈ infos ↔
       ∃ f m, store_view uploaded_state !! f = Some m ∧ starts_with "a" f ∧
              i = toFileInfo m) ∧
    NoDup (fi_Filename <$> infos) ∧
    store_view st1 = store_view uploaded_state ∧
    disk st1 = disk uploaded_state.
Proof.
  split; [exact wf_uploaded_state|].
  exact (Server_List_answers_from_store uploaded_state "a" wf_uploaded_state).
Defined.

Lemma Server_Delete_removes_blob_then_record_witness :
  is_Some (files uploaded_state !! "a.txt") ∧
  os_Remove_err (reliable t200) "a.txt" = None ∧
  Server_Delete (reliable t200) "a.txt" uploaded_state =
    (Ok (mkDeleteResponse true "File 'a.txt' deleted successfully"),
     mkState (heap uploaded_state) (delete "a.txt" (files uploaded_state))
             (delete "a.txt" (disk uploaded_state))).
Proof.
  assert (H : is_Some (files uploaded_state !! "a.txt"))
    by (exists 1; reflexivity).
  split; [exact H|]. split; [reflexivity|].
  exact (proj1 (Server_Delete_removes_blob_then_record (reliable t200)
                  uploaded_state "a.txt" H) eq_refl).
Defined.

Lemma Upload_then_Delete_witness :
  wf NewInMemoryMetadataStore ∧
  filepath_Base "a.txt" = "a.txt" ∧
  files NewInMemoryMetadataStore !! "a.txt" = None ∧
  ∃ resp st1 dresp st2,
    Server_Upload (reliable t100) short_upload NewInMemoryMetadataStore
      = Some (Ok resp, st1) ∧
    Server_Delete (reliable t200) "a.txt" st1 = (Ok dresp, st2) ∧
    del_Success dresp = true ∧
    store_view st2 = store_view NewInMemoryMetadataStore ∧
    disk st2 = delete "a.txt" (disk NewInMemoryMetadataStore).
Proof.
  assert (Hb : filepath_Base "a.txt" = "a.txt") by (vm_compute; reflexivity).
  split; [exact wf_new|]. split; [exact Hb|]. split; [reflexivity|].
  exact (Upload_then_Delete (reliable t100) (reliable t200)
           NewInMemoryMetadataStore "a.txt" 5 [["001"; "002"; "003"]%byte]
           wf_new Hb eq_refl eq_refl (λ _, eq_refl) eq_refl eq_refl eq_refl).
Defined.


Lemma Download_changes_nothing_witness :
  ∃ sent r st1,
    Server_Download (reliable t200) "a.txt" uploaded_state
      = Some (sent, r, st1) ∧
    files st1 = files uploaded_state ∧ disk st1 = disk uploaded_state ∧
    (wf uploaded_state → store_view st1 = store_view uploaded_state).
Proof.
  eexists _, _, _.
  match goal with
  | |- ?E ∧ _ => assert (H : E) by (vm_compute; reflexivity)
  end.
  split; [exact H|].
  exact (Download_changes_nothing (reliable t200) "a.txt" uploaded_state
           _ _ _ H).
Defined.


Lemma connected_client_returns senv st msgs resp st1 :
  Server_Upload senv (RecvMsg <$> msgs) st = Some (Ok resp, st1) →
  c_CloseAndRecv (connected_client senv st) msgs = Ok resp.
Proof. intros H. simpl. by rewrite H. Qed.


Lemma client_download_local_file_witness :
  ∃ local1 res,
    handleDownload_run
      (connected_client (reliable t100) NewInMemoryMetadataStore)
      ["a.txt"; "docs/a.txt"]
      [DownloadResponse_Metadata "a.txt" 5;
       DownloadResponse_Chunk ["009"%byte]]
      (Some (ErrExternal "connection lost")) sample_local = (local1, res) ∧
    (∀ p, p ≠ "docs/a.txt" → local1 !! p = sample_local !! p) ∧
    is_Some res ∧
    local1 !! "docs/a.txt" = None.
Proof.
  eexists _, _.
  match goal with
  | |- ?E ∧ _ => assert (H : E) by (vm_compute; reflexivity)
  end.
  split; [exact H|].
  pose proof (client_download_local_file
                (connected_client (reliable t100) NewInMemoryMetadataStore)
                "a.txt" ["docs/a.txt"] "a.txt" 5
                [DownloadResponse_Chunk ["009"%byte]]
                (Some (ErrExternal "connection lost")) sample_local
                "docs/a.txt" _ _ eq_refl eq_refl eq_refl H)
    as (Hother & Hgone & _ & _).
  split; [exact Hother|].
  assert (Hr : is_Some (Some (ErrWrap "download failed: "
                                (ErrExternal "connection lost"))))
    by (eexists; reflexivity).
  split; [exact Hr|]. exact (Hgone eq_refl Hr).
Defined.

Lemma download_of_absent_file_changes_nothing_witness :
  files uploaded_state !! "b.txt" = None ∧
  Server_Download (reliable t200) "b.txt" uploaded_state =
    Some ([], Some (ErrText "file not found: b.txt"), uploaded_state) ∧
  ∃ err,
    handleDownload_run
      (connected_client (reliable t100) NewInMemoryMetadataStore)
      ["b.txt"; "docs/a.txt"] []
      (Some (ErrText "file not found: b.txt")) sample_local
    = (sample_local, Some err).
Proof.
  split; [reflexivity|].
  exact (download_of_absent_file_changes_nothing (reliable t200)
           (connected_client (reliable t100) NewInMemoryMetadataStore)
           uploaded_state "b.txt" ["docs/a.txt"] sample_local
           (Some (ErrText "file not found: b.txt")) eq_refl).
Defined.

Lemma client_upload_then_download_witness :
  sample_local !! "docs/a.txt" = Some ["001"; "002"; "003"]%byte ∧
  wf NewInMemoryMetadataStore ∧
  files NewInMemoryMetadataStore !! filepath_Base "docs/a.txt" = None ∧
  ∃ sent resp st1 msgs st2,
    handleUpload (connected_client (reliable t100) NewInMemoryMetadataStore)
      ["docs/a.txt"] sample_local = Some (sent, None) ∧
    Server_Upload (reliable t100) (RecvMsg <$> sent) NewInMemoryMetadataStore
      = Some (Ok resp, st1) ∧
    Server_Download (reliable t200) (filepath_Base "docs/a.txt") st1
      = Some (msgs, None, st2) ∧
    handleDownload_run
      (connected_client (reliable t100) NewInMemoryMetadataStore)
      [filepath_Base "docs/a.txt"; "copy.txt"] msgs None ∅
    = (<["copy.txt" := ["001"; "002"; "003"]%byte]> ∅, None).
Proof.
  split; [reflexivity|]. split; [exact wf_new|]. split; [reflexivity|].
  exact (client_upload_then_download
           (connected_client (reliable t100) NewInMemoryMetadataStore)
           (reliable t100)
           (connected_client (reliable t100) NewInMemoryMetadataStore)
           (reliable t200) "docs/a.txt" [] ["001"; "002"; "003"]%byte
           sample_local NewInMemoryMetadataStore "copy.txt" ∅
           eq_refl eq_refl eq_refl eq_refl (λ _, eq_refl) (λ _, eq_refl)
           (connected_client_returns (reliable t100) NewInMemoryMetadataStore)
           wf_new eq_refl eq_refl (λ _, eq_refl) eq_refl eq_refl
           eq_refl (λ _, eq_refl) (λ _, eq_refl)
           eq_refl eq_refl (λ _, eq_refl)).
Defined.

(** The client at the sample data: the file at "docs/a.txt" is sent under
    the name "a.txt" with its length. *)
Example handleUpload_sample :
  handleUpload (connected_client (reliable t100) NewInMemoryMetadataStore)
    ["docs/a.txt"] sample_local =
  Some ([UploadRequest_Metadata "a.txt" 3;
         UploadRequest_Chunk ["001"; "002"; "003"]%byte], None).
Proof. vm_compute. reflexivity. Qed.


Lemma store_errors_change_nothing_witness :
  Create 0 t200 filed_state = Some (Some ErrFileAlreadyExists, filed_state) ∧
  ErrFileAlreadyExists = ErrFileAlreadyExists ∧ filed_state = filed_state.
Proof.
  assert (H : Create 0 t200 filed_state
              = Some (Some ErrFileAlreadyExists, filed_state))
    by (vm_compute; reflexivity).
  split; [exact H|].
  exact (proj1 (store_errors_change_nothing filed_state) 0 t200 _ _ H).
Defined.

Lemma filename_validation_witness :
  ("a.txt" ≠ "" ∧ ¬ has_separator "a.txt") ∧
  filepath_Base "a.txt" = "a.txt".
Proof.
  assert (H : "a.txt" ≠ "" ∧ ¬ has_separator "a.txt").
  { split; [discriminate|]. unfold has_separator. simpl.
    intros Hin. repeat (apply elem_of_cons in Hin as [Hin|Hin];
                        [discriminate Hin|]).
    by apply elem_of_nil in Hin. }
  split; [exact H|].
  exact (proj2 (proj1 (filename_validation "a.txt")) (or_intror H)).
Defined.

Lemma repeat_length_witness :
  (-3 ≤ 0)%Z ∧ repeat "-" (-3) = "" ∧ String.length (repeat "-" 77) = 77.
Proof.
  assert (H : (-3 ≤ 0)%Z) by lia.
  split; [exact H|]. split.
  - exact (proj2 (repeat_length "-" (-3)) H).
  - exact (proj1 (repeat_length "-" 77)).
Defined.

End Master.
